(** * RSDiX-CLIP: the numeric core of [models/clip/model_utils.py]

    A shallow embedding of the self-distillation utilities (Sinkhorn
    balancing, similarity matrices, teacher targets, the MSE reducer and the
    retrieval accuracy) together with the properties the specification
    states about them, followed by the running variance, the dataset splits
    and the annotation converters of [utils/utils.py].

    Tensor entries are IEEE-like values without rounding: a real number, one
    of the two infinities, or NaN.  Rounding, overflow, underflow and the
    sign of zero are not modelled: an operation on finite operands whose
    mathematical result is a real number yields that real number. *)

From Stdlib Require Import Reals Lra Lia ZArith Bool String List.
From Stdlib Require QArith Qround Lqa.
Import ListNotations.

Open Scope R_scope.

(** ** Scalars *)

Module Xr.

Inductive xr : Type :=
| Fin (r : R)
| PInf
| NInf
| NaN.

Definition signed_inf (positive : bool) : xr :=
  if positive then PInf else NInf.

(** [None] for zero, [Some true] for a positive real, [Some false] for a
    negative one. *)
Definition Rsign (r : R) : option bool :=
  if Req_dec_T r 0 then None
  else if Rlt_dec 0 r then Some true else Some false.

Definition xneg (x : xr) : xr :=
  match x with
  | Fin r => Fin (- r)
  | PInf => NInf
  | NInf => PInf
  | NaN => NaN
  end.

Definition xadd (x y : xr) : xr :=
  match x, y with
  | NaN, _ | _, NaN => NaN
  | Fin a, Fin b => Fin (a + b)
  | PInf, NInf | NInf, PInf => NaN
  | PInf, _ | _, PInf => PInf
  | NInf, _ | _, NInf => NInf
  end.

Definition xsub (x y : xr) : xr := xadd x (xneg y).

Definition xmul_inf (positive : bool) (r : R) : xr :=
  match Rsign r with
  | None => NaN
  | Some s => signed_inf (Bool.eqb positive s)
  end.

Definition xmul (x y : xr) : xr :=
  match x, y with
  | NaN, _ | _, NaN => NaN
  | Fin a, Fin b => Fin (a * b)
  | PInf, Fin b => xmul_inf true b
  | NInf, Fin b => xmul_inf false b
  | Fin a, PInf => xmul_inf true a
  | Fin a, NInf => xmul_inf false a
  | PInf, PInf | NInf, NInf => PInf
  | PInf, NInf | NInf, PInf => NInf
  end.

Definition xdiv (x y : xr) : xr :=
  match x, y with
  | NaN, _ | _, NaN => NaN
  | Fin a, Fin b =>
      if Req_dec_T b 0 then
        match Rsign a with
        | None => NaN
        | Some s => signed_inf s
        end
      else Fin (a / b)
  | Fin _, (PInf | NInf) => Fin 0
  | PInf, Fin b =>
      match Rsign b with None => PInf | Some s => signed_inf s end
  | NInf, Fin b =>
      match Rsign b with None => NInf | Some s => signed_inf (negb s) end
  | (PInf | NInf), (PInf | NInf) => NaN
  end.

Definition xexp (x : xr) : xr :=
  match x with
  | Fin r => Fin (exp r)
  | PInf => PInf
  | NInf => Fin 0
  | NaN => NaN
  end.

(** [torch.isnan] and [torch.isinf] on one entry. *)
Definition isnan (x : xr) : bool :=
  match x with NaN => true | _ => false end.

Definition isinf (x : xr) : bool :=
  match x with PInf | NInf => true | _ => false end.

(** The comparison [torch.argmax] reduces with: NaN beats every other value,
    and between two values that are not NaN the larger one wins. *)
Definition xgt (x y : xr) : bool :=
  match x, y with
  | NaN, NaN => false
  | NaN, _ => true
  | _, NaN => false
  | PInf, PInf => false
  | PInf, _ => true
  | _, PInf => false
  | Fin a, Fin b => if Rlt_dec b a then true else false
  | Fin _, NInf => true
  | NInf, _ => false
  end.

(** Entry-wise predicates used by the statements below. *)
Definition finite (x : xr) : Prop :=
  match x with Fin _ => True | _ => False end.

Definition positive (x : xr) : Prop :=
  match x with Fin r => 0 < r | _ => False end.

Definition between (lo hi : R) (x : xr) : Prop :=
  match x with Fin r => lo <= r <= hi | _ => False end.

Definition to_R (x : xr) : R :=
  match x with Fin r => r | _ => 0 end.

End Xr.
Export Xr.

(** ** Python exceptions and results *)

Inductive exn : Type :=
| AssertionError
| ZeroDivisionError
| ValueError (allowed : list string) (given : string).

Inductive result (A : Type) : Type :=
| Ok (a : A)
| Raise (e : exn).
Arguments Ok {A} a.
Arguments Raise {A} e.

Definition bind {A B : Type} (r : result A) (f : A -> result B) : result B :=
  match r with
  | Ok a => f a
  | Raise e => Raise e
  end.

Notation "x <- r ;; k" := (bind r (fun x => k))
  (at level 61, r at next level, right associativity).

(** ** Tensors

    A tensor of rank [n] is a list nested [n] deep; a rank-0 tensor is one
    entry.  torch tensors are rectangular, which [has_shape] states; a
    dimension of size zero loses the sizes nested under it, so the
    statements below are about tensors whose dimensions are all positive. *)

Module Tensor.

Fixpoint tensor (n : nat) : Type :=
  match n with
  | O => xr
  | S k => list (tensor k)
  end.

Fixpoint has_shape (sh : list nat) (n : nat) {struct n} : tensor n -> Prop :=
  match n with
  | O => fun _ => sh = []
  | S k => fun t =>
      match sh with
      | [] => False
      | d :: sh' => length t = d /\ Forall (has_shape sh' k) t
      end
  end.

(** Every entry satisfies [P]. *)
Fixpoint tall (P : xr -> Prop) (n : nat) : tensor n -> Prop :=
  match n with
  | O => P
  | S k => Forall (tall P k)
  end.

(** [x.any()] of an entry-wise test. *)
Fixpoint tany (p : xr -> bool) (n : nat) : tensor n -> bool :=
  match n with
  | O => p
  | S k => existsb (tany p k)
  end.

(** Resolution of a possibly negative axis index against a rank. *)
Definition axis (n : nat) (d : Z) : nat :=
  Z.to_nat (if (d <? 0)%Z then Z.of_nat n + d else d)%Z.

(** [t.shape[d]] for an axis counted from the front. *)
Fixpoint dim_size (n : nat) (d : nat) : tensor n -> nat :=
  match n with
  | O => fun _ => 1%nat
  | S k => fun t =>
      match d with
      | O => length t
      | S d' => match t with [] => 0%nat | x :: _ => dim_size k d' x end
      end
  end.

(** Entry-wise unary operations. *)
Fixpoint tmap (f : xr -> xr) (n : nat) : tensor n -> tensor n :=
  match n with
  | O => f
  | S k => map (tmap f k)
  end.

Fixpoint zip_with {A B C : Type} (f : A -> B -> C)
  (l1 : list A) (l2 : list B) : list C :=
  match l1, l2 with
  | x :: r1, y :: r2 => f x y :: zip_with f r1 r2
  | _, _ => []
  end.

(** Entry-wise binary operations with the right operand broadcast to the
    shape of the left one: along an axis where the right operand has size 1
    its single slice is used for every slice of the left operand.  Every
    binary tensor operation of this module has its left operand at the shape
    of the result (an in-place update, or a tensor combined with a
    [keepdim] reduction of itself). *)
Fixpoint tbin (f : xr -> xr -> xr) (n : nat) : tensor n -> tensor n -> tensor n :=
  match n with
  | O => f
  | S k => fun a b =>
      match b with
      | [y] => map (fun x => tbin f k x y) a
      | _ => zip_with (tbin f k) a b
      end
  end.

(** The zero a sum over an empty axis returns. *)
Definition tzero (n : nat) : tensor n :=
  match n with
  | O => Fin 0
  | S k => []
  end.

(** The entry-wise sum of the slices of a list, accumulated left to right. *)
Definition tadd_all (n : nat) (l : list (tensor n)) : tensor n :=
  match l with
  | [] => tzero n
  | x :: r => fold_left (tbin xadd n) r x
  end.

(** [t.sum(dim=d, keepdim=True)] for an axis counted from the front. *)
Fixpoint tsum (n : nat) (d : nat) : tensor n -> tensor n :=
  match n with
  | O => fun x => x
  | S k => fun t =>
      match d with
      | O => [tadd_all k t]
      | S d' => map (tsum k d') t
      end
  end.

(** [t.unsqueeze(d)] for an axis counted from the front. *)
Fixpoint unsqueeze (n : nat) (d : nat) : tensor n -> tensor (S n) :=
  match n with
  | O => fun x => [x]
  | S k => fun t =>
      match d with
      | O => [t]
      | S d' => map (unsqueeze k d') t
      end
  end.

(** The sum of a vector, [v.sum()]. *)
Definition xsum (v : list xr) : xr := tadd_all 0 v.

End Tensor.
Export Tensor.

(** ** [models/clip/model_utils.py] *)

Module ModelUtils.

Open Scope string_scope.

Definition REDUCTIONS : list string :=
  ["mean"; "average"; "avg"; "sum"; "add"; "none"].

Close Scope string_scope.

Definition _has_nan_or_inf (n : nat) (x : tensor n) : bool :=
  tany isnan n x || tany isinf n x.

(** Python's [1 / m] on an [int]. *)
Definition py_inv (m : nat) : result xr :=
  match m with
  | O => Raise ZeroDivisionError
  | S _ => Ok (Fin (1 / INR m))
  end.

(** What [r_prob] and [c_prob] hold when the loop starts: the Python float
    of a missing marginal, or the normalized and unsqueezed tensor. *)
Inductive marginal (n : nat) : Type :=
| Uniform (p : xr)
| Given (t : tensor n).
Arguments Uniform {n} p.
Arguments Given {n} t.

(** [q *= p]. *)
Definition scale (n : nat) (q : tensor n) (p : marginal n) : tensor n :=
  match p with
  | Uniform x => tmap (fun e => xmul e x) n q
  | Given t => tbin xmul n q t
  end.

Section Sinkhorn.

Variable k : nat.   (* the number of leading batch dimensions *)

(** Lines 25-26: [exp(-cost_mat / eps)], divided by its sum over the last two
    axes (summed along the last axis, then along the one before it). *)
Definition sinkhorn_init (cost_mat : tensor (S (S k))) (eps : xr) : tensor (S (S k)) :=
  let q := tmap (fun c => xexp (xdiv (xneg c) eps)) (S (S k)) cost_mat in
  tbin xdiv (S (S k)) q
    (tsum (S (S k)) (axis (S (S k)) (-2))
       (tsum (S (S k)) (axis (S (S k)) (-1)) q)).

(** [(p / p.sum(dim=-1, keepdim=True))] of lines 31 and 38. *)
Definition normalize_prob (p : tensor (S k)) : tensor (S k) :=
  tbin xdiv (S k) p (tsum (S k) (axis (S k) (-1)) p).

(** Lines 29-34. *)
Definition row_marginal (m : nat) (r_prob : option (tensor (S k)))
  : result (marginal (S (S k))) :=
  match r_prob with
  | Some r =>
      let r' := unsqueeze (S k) (axis (S (S k)) (-1)) (normalize_prob r) in
      if _has_nan_or_inf (S (S k)) r' then Raise AssertionError else Ok (Given r')
  | None => p <- py_inv m ;; Ok (Uniform p)
  end.

(** Lines 36-41. *)
Definition col_marginal (n : nat) (c_prob : option (tensor (S k)))
  : result (marginal (S (S k))) :=
  match c_prob with
  | Some c =>
      let c' := unsqueeze (S k) (axis (S (S k)) (-2)) (normalize_prob c) in
      if _has_nan_or_inf (S (S k)) c' then Raise AssertionError else Ok (Given c')
  | None => p <- py_inv n ;; Ok (Uniform p)
  end.

(** The body of the loop, lines 45-49. *)
Definition sinkhorn_step (r_prob c_prob : marginal (S (S k)))
  (q : tensor (S (S k))) : tensor (S (S k)) :=
  let q := tbin xdiv (S (S k)) q (tsum (S (S k)) (axis (S (S k)) (-1)) q) in
  let q := scale (S (S k)) q r_prob in
  let q := tbin xdiv (S (S k)) q (tsum (S (S k)) (axis (S (S k)) (-2)) q) in
  scale (S (S k)) q c_prob.

(** Lines 25-49: the matrix [q] the loop leaves. *)
Definition sinkhorn_iterate (cost_mat : tensor (S (S k))) (eps : xr) (niter : Z)
  (r_prob c_prob : option (tensor (S k))) : result (tensor (S (S k))) :=
  let q := sinkhorn_init cost_mat eps in
  let m := dim_size (S (S k)) (axis (S (S k)) (-2)) q in
  let n := dim_size (S (S k)) (axis (S (S k)) (-1)) q in
  r <- row_marginal m r_prob ;;
  c <- col_marginal n c_prob ;;
  Ok (Nat.iter (Z.to_nat niter) (sinkhorn_step r c) q).

(** Line 50: [q / q.sum(dim=1, keepdim=True)]. *)
Definition sinkhorn_final (q : tensor (S (S k))) : tensor (S (S k)) :=
  tbin xdiv (S (S k)) q (tsum (S (S k)) (axis (S (S k)) 1) q).

Definition sinkhorn (cost_mat : tensor (S (S k))) (eps : xr) (niter : Z)
  (r_prob c_prob : option (tensor (S k))) : result (tensor (S (S k))) :=
  q <- sinkhorn_iterate cost_mat eps niter r_prob c_prob ;;
  Ok (sinkhorn_final q).

End Sinkhorn.

(** [x.t()] of a matrix. *)
Definition t (x : tensor 2) : tensor 2 :=
  map (fun j => map (fun row => nth j row (Fin 0)) x) (seq 0 (dim_size 2 1 x)).

Definition dot (u v : list xr) : xr := xsum (zip_with xmul u v).

(** [torch.matmul] of two matrices: entry (i, j) pairs row i of [a] with
    column j of [b]. *)
Definition matmul (a b : tensor 2) : tensor 2 :=
  map (fun row => map (fun col => dot row col) (t b)) a.

Definition compute_similarities (i_emb t_emb : tensor 2)
  : tensor 2 * tensor 2 * tensor 2 * tensor 2 :=
  let sim_ii := matmul i_emb (t i_emb) in
  let sim_tt := matmul t_emb (t t_emb) in
  let sim_it := matmul i_emb (t t_emb) in
  let sim_ti := matmul t_emb (t i_emb) in
  (sim_ii, sim_tt, sim_it, sim_ti).

(** [torch.eye(n, m)]. *)
Definition eye (n m : nat) : tensor 2 :=
  map (fun i => map (fun j => if Nat.eqb i j then Fin 1 else Fin 0) (seq 0 m))
      (seq 0 n).

(** [x /= x.sum(dim=1, keepdim=True)] on a matrix. *)
Definition row_normalize (x : tensor 2) : tensor 2 :=
  tbin xdiv 2 x (tsum 2 (axis 2 1) x).

Definition compute_teacher_targets (teacher_images_embs teacher_text_embs : tensor 2)
  (ii_coeff tt_coeff sinkhorn_lambda : xr) (sinkhorn_iter : Z)
  (remove_diag : xr) (sigmoid_target : bool) : result (tensor 2 * tensor 2) :=
  let '(sim_ii, sim_tt, sim_it, sim_ti) :=
    compute_similarities teacher_images_embs teacher_text_embs in
  let diag :=
    tmap (fun e => xmul (xmul e remove_diag) (Fin 100)) 2
         (eye (dim_size 2 0 sim_ii) (dim_size 2 1 sim_ii)) in
  let sim_ii := tmap (fun e => xmul e ii_coeff) 2 (tbin xsub 2 sim_ii diag) in
  let sim_tt := tmap (fun e => xmul e tt_coeff) 2 (tbin xsub 2 sim_tt diag) in
  let images_cost_mat :=
    tmap xneg 2 (tbin xadd 2 (tbin xadd 2 sim_ii sim_tt) sim_it) in
  let text_cost_mat :=
    tmap xneg 2 (tbin xadd 2 (tbin xadd 2 sim_ii sim_tt) sim_ti) in
  images_target_prob <-
    sinkhorn 0 images_cost_mat sinkhorn_lambda sinkhorn_iter None None ;;
  text_target_prob <-
    sinkhorn 0 text_cost_mat sinkhorn_lambda sinkhorn_iter None None ;;
  if sigmoid_target then
    let images_target_prob := row_normalize images_target_prob in
    let text_target_prob := row_normalize text_target_prob in
    Ok (tmap (fun e => xsub (xmul e (Fin 2)) (Fin 1)) 2 images_target_prob,
        tmap (fun e => xsub (xmul e (Fin 2)) (Fin 1)) 2 text_target_prob)
  else
    Ok (row_normalize images_target_prob, row_normalize text_target_prob).

(** [torch.nn.MSELoss()]: the mean of the squared entry-wise differences. *)
Definition mse_loss (input target : tensor 2) : xr :=
  let sq := concat (tbin (fun x y => xmul (xsub x y) (xsub x y)) 2 input target) in
  xdiv (xsum sq) (Fin (INR (length sq))).

(** [torch.mean] of a vector. *)
Definition mean (v : list xr) : xr := xdiv (xsum v) (Fin (INR (length v))).

(** What [compute_mse_similarities] returns: a 0-dimensional tensor or the
    stacked vector. *)
Inductive mse_value : Type :=
| Scalar (x : xr)
| Stacked (v : list xr).

Definition str_in (s : string) (l : list string) : bool :=
  existsb (String.eqb s) l.

Definition compute_mse_similarities
  (image_image_similarities image_text_similarities
   text_text_similarities_clip text_text_similarities_st : tensor 2)
  (reduction : string) : result mse_value :=
  if negb (str_in reduction REDUCTIONS) then
    Raise (ValueError REDUCTIONS reduction)
  else
    let reduction :=
      if String.eqb reduction "average" then "mean"%string else reduction in
    let ii_mse := mse_loss image_image_similarities text_text_similarities_st in
    let it_mse := mse_loss image_text_similarities text_text_similarities_st in
    let tt_mse := mse_loss text_text_similarities_clip text_text_similarities_st in
    let mse_tensor := [ii_mse; it_mse; tt_mse] in
    if String.eqb reduction "mean" || String.eqb reduction "average"
       || String.eqb reduction "avg" then
      Ok (Scalar (mean mse_tensor))
    else if String.eqb reduction "sum" || String.eqb reduction "add" then
      Ok (Scalar (mean mse_tensor))
    else
      Ok (Stacked mse_tensor).

(** [torch.argmax] of a vector: the first index holding the greatest entry,
    scanning left to right with the running best. *)
Fixpoint argmax_from (best : xr) (best_i i : nat) (v : list xr) : nat :=
  match v with
  | [] => best_i
  | x :: r =>
      if xgt x best then argmax_from x i (S i) r
      else argmax_from best best_i (S i) r
  end.

Definition argmax1 (v : list xr) : nat :=
  match v with
  | [] => 0%nat
  | x :: r => argmax_from x 0 1 r
  end.

(** [torch.argmax(x, dim)] of a matrix: [dim = 1] reduces each row,
    [dim = 0] each column. *)
Definition argmax (x : tensor 2) (dim : nat) : list nat :=
  match dim with
  | O => map argmax1 (t x)
  | S _ => map argmax1 x
  end.

(** [(a == b).sum()] of two index vectors. *)
Definition count_eq (a b : list nat) : nat :=
  length (filter (fun p => Nat.eqb (fst p) (snd p)) (combine a b)).

Definition compute_accuracy (images_logits : tensor 2) (batch_size : Z) : xr :=
  let ground_truth := seq 0 (length images_logits) in
  let acc_i := count_eq (argmax images_logits 1) ground_truth in
  let acc_t := count_eq (argmax images_logits 0) ground_truth in
  xdiv (xdiv (Fin (INR (acc_i + acc_t))) (Fin 2)) (Fin (IZR batch_size)).

End ModelUtils.
Export ModelUtils.

(** * [utils/utils.py] *)

Module Utils.

Import QArith.

(** [inc_var]: the running sample variance after the [n]-th value.  The
    quotients [(n - 2) / (n - 1)] and [1 / n] are quotients of Python
    integers, which raise on a zero divisor; the rest is float arithmetic. *)
Definition inc_var (value : xr) (n : Z) (prev_var prev_mean : xr) : result xr :=
  if (n =? 1)%Z then Ok (Fin 0)
  else
    let a := Fin (IZR (n - 2) / IZR (n - 1)) in
    if (n =? 0)%Z then Raise ZeroDivisionError
    else
      let b := Fin (1 / IZR n) in
      let d := xsub value prev_mean in
      Ok (xadd (xmul a prev_var) (xmul b (xmul d d))).

(** [int(x)] of a float: truncation towards zero.  The percentages of
    [get_splits] are floats, taken here as the rationals they denote,
    without rounding. *)
Definition py_int (x : Q) : Z := Z.quot (Qnum x) (Zpos (Qden x)).

Definition get_splits (n_instances : Z)
  (train_split_percentage val_split_percentage : Q) : Z * Z * Z :=
  if Qeq_bool train_split_percentage 0 && Qeq_bool val_split_percentage 0 then
    (0, 0, n_instances)%Z
  else
    let train_split :=
      py_int (inject_Z n_instances * train_split_percentage / 100)%Q in
    let remaining_split := (n_instances - train_split)%Z in
    let val_split :=
      py_int (inject_Z n_instances * val_split_percentage / 100)%Q in
    let test_split := (remaining_split - val_split)%Z in
    if Qle_bool 100 (train_split_percentage + val_split_percentage)%Q then
      ((train_split + test_split)%Z, val_split, 0%Z)
    else
      (train_split, val_split, test_split).

End Utils.

(** ** The annotation converters of [utils/utils.py]

    JSON values as [json.load] returns them: objects are Python dicts, kept
    here as association lists in insertion order, arrays are Python lists.
    The converters read a file, rearrange the value and write two files; the
    embedding starts from what was read (the parsed value, or the lines of
    the file where the code parses line by line) and returns the pair of
    values written (the first over the annotations file, the second to the test
    output file).  Nothing is written unless the whole rearrangement
    succeeds, since both [json.dump] calls come last. *)

Module Annotations.

#[warnings="-register-all"]
Inductive json : Type :=
| JNull
| JBool (b : bool)
| JInt (z : Z)
| JFloat (x : xr)
| JStr (s : string)
| JList (l : list json)
| JDict (d : list (string * json)).

Inductive error : Type :=
| JSONDecodeError
| AttributeError
| TypeError
| KeyError (key : string).

Inductive outcome (A : Type) : Type :=
| Done (a : A)
| Fail (e : error).
Arguments Done {A} a.
Arguments Fail {A} e.

Definition and_then {A B : Type} (r : outcome A) (f : A -> outcome B) : outcome B :=
  match r with
  | Done a => f a
  | Fail e => Fail e
  end.

Notation "x <~ r ;; k" := (and_then r (fun x => k))
  (at level 61, r at next level, right associativity).

Fixpoint lookup (key : string) (d : list (string * json)) : option json :=
  match d with
  | [] => None
  | (k, v) :: rest => if String.eqb k key then Some v else lookup key rest
  end.

(** [v[key]] for a string key: a dict looks the key up, a list or a string
    accepts only integer indices, and the other values are not
    subscriptable. *)
Definition subscript (v : json) (key : string) : outcome json :=
  match v with
  | JDict d =>
      match lookup key d with
      | Some x => Done x
      | None => Fail (KeyError key)
      end
  | _ => Fail TypeError
  end.

(** [v.keys()]: only a dict has the method. *)
Definition keys (v : json) : outcome (list string) :=
  match v with
  | JDict d => Done (map fst d)
  | _ => Fail AttributeError
  end.

Fixpoint chars (s : string) : list string :=
  match s with
  | EmptyString => []
  | String c rest => String c EmptyString :: chars rest
  end.

(** The items a [for] loop over [v] visits: the elements of a list, the keys
    of a dict, the characters of a string. *)
Definition iterate (v : json) : outcome (list json) :=
  match v with
  | JList l => Done l
  | JDict d => Done (map (fun kv => JStr (fst kv)) d)
  | JStr s => Done (map JStr (chars s))
  | _ => Fail TypeError
  end.

(** [v == s] for a Python string [s]. *)
Definition eq_str (v : json) (s : string) : bool :=
  match v with
  | JStr s' => String.eqb s' s
  | _ => false
  end.

(** A list comprehension whose element expression may raise. *)
Fixpoint traverse {A B : Type} (f : A -> outcome B) (l : list A) : outcome (list B) :=
  match l with
  | [] => Done []
  | a :: rest =>
      b <~ f a ;;
      bs <~ traverse f rest ;;
      Done (b :: bs)
  end.

Section Nwpu.

(** [os.sep], and what an f-string writes for a value that is not a
    string. *)
Variable sep : string.
Variable str_of : json -> string.

Definition format (v : json) : string :=
  match v with
  | JStr s => s
  | _ => str_of v
  end.

(** Lines 128-134: the row built for one entry of a category. *)
Definition nwpu_row (category : string) (category_row : json) : outcome json :=
  filename <~ subscript category_row "filename" ;;
  imgid <~ subscript category_row "imgid" ;;
  split <~ subscript category_row "split" ;;
  raw_keys <~ keys category_row ;;
  sentences <~ traverse (fun raw_key =>
                           raw <~ subscript category_row raw_key ;;
                           Done (JDict [("raw"%string, raw)]))
                        (filter (String.prefix "raw") raw_keys) ;;
  Done (JDict [("filename"%string, JStr (category ++ sep ++ format filename));
               ("imgid"%string, imgid);
               ("split"%string, split);
               ("sentences"%string, JList sentences)]).

(** The inner loop, lines 127-138, over the rows of one category; the
    accumulator holds [train_data["images"]] and [test_data["images"]]. *)
Fixpoint nwpu_rows (category : string) (rows : list json)
  (acc : list json * list json) : outcome (list json * list json) :=
  match rows with
  | [] => Done acc
  | category_row :: rest =>
      row <~ nwpu_row category category_row ;;
      split <~ subscript row "split" ;;
      if eq_str split "test" then nwpu_rows category rest (fst acc, snd acc ++ [row])
      else nwpu_rows category rest (fst acc ++ [row], snd acc)
  end.

(** The outer loop, line 126. *)
Fixpoint nwpu_categories (data : json) (categories : list string)
  (acc : list json * list json) : outcome (list json * list json) :=
  match categories with
  | [] => Done acc
  | category :: rest =>
      value <~ subscript data category ;;
      rows <~ iterate value ;;
      acc' <~ nwpu_rows category rows acc ;;
      nwpu_categories data rest acc'
  end.

Definition nwpu_dataset (images : list json) : json :=
  JDict [("images"%string, JList images); ("dataset"%string, JStr "NWPU-Captions")].

(** [separate_nwpu_test_images], from the loaded [data] to the pair
    ([train_data], [test_data]) it dumps. *)
Definition separate_nwpu_test_images (data : json) : outcome (json * json) :=
  categories <~ keys data ;;
  acc <~ nwpu_categories data categories ([], []) ;;
  Done (nwpu_dataset (fst acc), nwpu_dataset (snd acc)).

End Nwpu.

Section Rsicd.

(** [json.loads] of one line of the file; [None] when it raises. *)
Variable loads : string -> option json.

Definition load_line (line : string) : outcome json :=
  match loads line with
  | Some v => Done v
  | None => Fail JSONDecodeError
  end.

(** The loop of lines 88-92. *)
Fixpoint rsicd_images (images : list json) (acc : list json * list json)
  : outcome (list json * list json) :=
  match images with
  | [] => Done acc
  | img :: rest =>
      split <~ subscript img "split" ;;
      if eq_str split "test" then rsicd_images rest (fst acc, snd acc ++ [img])
      else rsicd_images rest (fst acc ++ [img], snd acc)
  end.

(** [separate_rsicd_test_images], from the lines of the annotations file to
    the pair ([new_data], [test_images]) it dumps.  [data] is the Python
    list of the parsed lines. *)
Definition separate_rsicd_test_images (lines : list string) : outcome (json * json) :=
  parsed <~ traverse load_line lines ;;
  let data := JList parsed in
  test_dataset <~ subscript data "dataset" ;;
  new_dataset <~ subscript data "dataset" ;;
  images <~ subscript data "images" ;;
  items <~ iterate images ;;
  acc <~ rsicd_images items ([], []) ;;
  Done (JDict [("images"%string, JList (fst acc)); ("dataset"%string, new_dataset)],
        JDict [("images"%string, JList (snd acc)); ("dataset"%string, test_dataset)]).

End Rsicd.

End Annotations.

(** ** The Sinkhorn iterate, entry by entry

    [SinkhornSpec] writes the iterate the way the specification words it,
    one entry at a time; [sinkhorn_iterate_as_specified] below compares the
    tensor operations of [sinkhorn_iterate] with it. *)

Module SinkhornSpec.

Definition entry (q : tensor 2) (i j : nat) : xr := nth j (nth i q []) (Fin 0).

Definition row_sum (q : tensor 2) (i : nat) : xr := xsum (nth i q []).

Definition col_sum (q : tensor 2) (j : nat) : xr :=
  xsum (map (fun r => nth j r (Fin 0)) q).

Definition total_sum (q : tensor 2) : xr := xsum (map xsum q).

(** The M x N matrix with the given entries. *)
Definition matrix (M N : nat) (f : nat -> nat -> xr) : tensor 2 :=
  map (fun i => map (fun j => f i j) (seq 0 N)) (seq 0 M).

(** [exp(-cost / eps)], divided by its total mass. *)
Definition q0 (M N : nat) (cost_mat : tensor 2) (eps : xr) : tensor 2 :=
  let g := matrix M N (fun i j => xexp (xdiv (xneg (entry cost_mat i j)) eps)) in
  matrix M N (fun i j => xdiv (entry g i j) (total_sum g)).

(** The target marginal at index [i]: the supplied one normalized to sum to
    1, or the uniform value. *)
Definition target (p : option (list xr)) (size : nat) (i : nat) : xr :=
  match p with
  | Some v => xdiv (nth i v (Fin 0)) (xsum v)
  | None => Fin (1 / INR size)
  end.

Definition row_step (M N : nat) (r_prob : option (list xr)) (q : tensor 2) : tensor 2 :=
  matrix M N (fun i j => xmul (xdiv (entry q i j) (row_sum q i)) (target r_prob M i)).

Definition col_step (M N : nat) (c_prob : option (list xr)) (q : tensor 2) : tensor 2 :=
  matrix M N (fun i j => xmul (xdiv (entry q i j) (col_sum q j)) (target c_prob N j)).

Definition iterate (M N : nat) (cost_mat : tensor 2) (eps : xr) (niter : Z)
  (r_prob c_prob : option (list xr)) : tensor 2 :=
  Nat.iter (Z.to_nat niter)
    (fun q => col_step M N c_prob (row_step M N r_prob q))
    (q0 M N cost_mat eps).

(** With leading batch dimensions, the same on every matrix of the batch,
    each with its own slice of the marginals. *)
Fixpoint iterate_batch (k M N : nat)
  : tensor (S (S k)) -> xr -> Z -> option (tensor (S k)) -> option (tensor (S k))
    -> tensor (S (S k)) :=
  match k with
  | O => fun cost_mat eps niter r_prob c_prob =>
      iterate M N cost_mat eps niter r_prob c_prob
  | S k' => fun cost_mat eps niter r_prob c_prob =>
      map (fun b =>
             iterate_batch k' M N (nth b cost_mat (tzero (S (S k')))) eps niter
               (option_map (fun p => nth b p (tzero (S k'))) r_prob)
               (option_map (fun p => nth b p (tzero (S k'))) c_prob))
          (seq 0 (length cost_mat))
  end.

End SinkhornSpec.

(** * Properties *)

(** ** Arithmetic on entries *)

Section XrFacts.

Lemma xdiv_fin (a b : R) : b <> 0 -> xdiv (Fin a) (Fin b) = Fin (a / b).
Proof.
  intros Hb. unfold xdiv. destruct (Req_dec_T b 0); [contradiction | reflexivity].
Qed.

Lemma xdiv_positive (x y : xr) : positive x -> positive y -> positive (xdiv x y).
Proof.
  destruct x as [a| | |], y as [b| | |]; simpl; try tauto.
  intros Ha Hb. destruct (Req_dec_T b 0); [lra |].
  simpl. apply Rdiv_lt_0_compat; assumption.
Qed.

Lemma xmul_positive (x y : xr) : positive x -> positive y -> positive (xmul x y).
Proof.
  destruct x as [a| | |], y as [b| | |]; simpl; try tauto.
  intros Ha Hb. apply Rmult_lt_0_compat; assumption.
Qed.

Lemma xadd_positive (x y : xr) : positive x -> positive y -> positive (xadd x y).
Proof.
  destruct x as [a| | |], y as [b| | |]; simpl; try tauto.
  intros Ha Hb. lra.
Qed.

Lemma xadd_finite (x y : xr) : finite x -> finite y -> finite (xadd x y).
Proof. destruct x, y; simpl; tauto. Qed.

Lemma xmul_finite (x y : xr) : finite x -> finite y -> finite (xmul x y).
Proof. destruct x, y; simpl; tauto. Qed.

Lemma xsub_finite (x y : xr) : finite x -> finite y -> finite (xsub x y).
Proof. destruct x, y; simpl; tauto. Qed.

Lemma xneg_finite (x : xr) : finite x -> finite (xneg x).
Proof. destruct x; simpl; tauto. Qed.

Lemma positive_finite (x : xr) : positive x -> finite x.
Proof. destruct x; simpl; tauto. Qed.

(** [exp(-c / eps)] of a finite cost at a finite non-zero temperature. *)
Lemma gibbs_positive (c : xr) (e : R) :
  finite c -> e <> 0 -> positive (xexp (xdiv (xneg c) (Fin e))).
Proof.
  destruct c as [a| | |]; simpl; try tauto.
  intros _ He. destruct (Req_dec_T e 0); [contradiction |].
  simpl. apply exp_pos.
Qed.

Lemma xmul_comm (x y : xr) : xmul x y = xmul y x.
Proof.
  destruct x, y; simpl; try reflexivity. f_equal. lra.
Qed.

End XrFacts.

(** ** Shapes and entry-wise predicates under the tensor operations *)

(** The shape [t.sum(dim=d, keepdim=True)] has. *)
Fixpoint keepdim (d : nat) (sh : list nat) {struct sh} : list nat :=
  match sh with
  | [] => []
  | x :: r =>
      match d with
      | O => 1%nat :: r
      | S d' => x :: keepdim d' r
      end
  end.

(** [sh'] broadcasts to [sh]. *)
Definition bcast (sh sh' : list nat) : Prop :=
  Forall2 (fun d d' => d' = d \/ d' = 1%nat) sh sh'.

Definition positive_dims (sh : list nat) : Prop := Forall (fun d => (0 < d)%nat) sh.

Lemma bcast_refl (sh : list nat) : bcast sh sh.
Proof. induction sh; constructor; auto. Qed.

Lemma bcast_keepdim (d : nat) (sh : list nat) : bcast sh (keepdim d sh).
Proof.
  unfold bcast. revert d; induction sh as [|x r IH]; intros d; simpl.
  - constructor.
  - destruct d; constructor; auto. apply bcast_refl.
Qed.

Lemma bcast_trans (a b c : list nat) : bcast a b -> bcast b c -> bcast a c.
Proof.
  intros H; revert c; induction H as [|x y l l' Hxy H IH]; intros c Hc;
    inversion Hc; subst; constructor.
  - destruct Hxy, H2; subst; auto.
  - apply IH; assumption.
Qed.

Lemma positive_dims_keepdim (d : nat) (sh : list nat) :
  positive_dims sh -> positive_dims (keepdim d sh).
Proof.
  revert d; induction sh as [|x r IH]; intros d H; simpl; [constructor |].
  inversion H; subst. destruct d; constructor; auto. apply IH; assumption.
Qed.

Section TensorFacts.

Lemma tall_tmap (P Q : xr -> Prop) (f : xr -> xr) (H : forall x, P x -> Q (f x)) :
  forall n t, tall P n t -> tall Q n (tmap f n t).
Proof.
  induction n as [|k IH]; simpl; intros t Ht; [auto |].
  apply Forall_map. eapply Forall_impl; [apply IH | exact Ht].
Qed.

Lemma has_shape_tmap (f : xr -> xr) :
  forall n sh t, has_shape sh n t -> has_shape sh n (tmap f n t).
Proof.
  induction n as [|k IH]; simpl; intros sh t Ht; [auto |].
  destruct sh as [|d sh']; simpl in *; [contradiction |]. destruct Ht as [Hl Hf].
  split; [now rewrite length_map |].
  apply Forall_map. eapply Forall_impl; [apply IH | exact Hf].
Qed.

Lemma length_zip_with {A B C : Type} (f : A -> B -> C) (l1 : list A) (l2 : list B) :
  length l1 = length l2 -> length (zip_with f l1 l2) = length l1.
Proof.
  revert l2; induction l1 as [|x r IH]; intros [|y r2]; simpl; intros H;
    try discriminate; auto.
Qed.

Lemma Forall_zip_with {A B C : Type} (f : A -> B -> C)
  (P : A -> Prop) (Q : B -> Prop) (S : C -> Prop)
  (H : forall x y, P x -> Q y -> S (f x y)) (l1 : list A) (l2 : list B) :
  Forall P l1 -> Forall Q l2 -> Forall S (zip_with f l1 l2).
Proof.
  intros H1; revert l2; induction H1 as [|x r Hx Hr IH]; intros l2 H2; simpl.
  - constructor.
  - destruct H2 as [|y r2 Hy Hr2]; constructor; auto.
Qed.

(** Shape and entries of a broadcast binary operation, in one statement so
    that the induction on the rank carries both. *)
Lemma tbin_spec (f : xr -> xr -> xr) (P Q S : xr -> Prop)
  (H : forall x y, P x -> Q y -> S (f x y)) :
  forall n sh sh' a b,
    has_shape sh n a -> has_shape sh' n b -> bcast sh sh' ->
    tall P n a -> tall Q n b ->
    has_shape sh n (tbin f n a b) /\ tall S n (tbin f n a b).
Proof.
  induction n as [|k IH]; simpl; intros sh sh' a b Ha Hb Hbc Pa Qb.
  - auto.
  - destruct sh as [|d sh1]; simpl in *; [contradiction |].
    destruct sh' as [|d' sh1']; simpl in *; [contradiction |].
    destruct Ha as [La Fa], Hb as [Lb Fb].
    inversion Hbc as [|? ? ? ? Hd Hbc']; subst.
    assert (Hone : forall y, Forall (has_shape sh1' k) [y] -> Forall (tall Q k) [y] ->
              length (map (fun x => tbin f k x y) a) = length a /\
              Forall (has_shape sh1 k) (map (fun x => tbin f k x y) a) /\
              Forall (tall S k) (map (fun x => tbin f k x y) a)).
    { intros y Hy Qy. inversion Hy; subst. inversion Qy; subst.
      split; [apply length_map |].
      split; apply Forall_map; rewrite Forall_forall in *; intros x Hx;
        eapply IH; eauto. }
    destruct b as [|y [|y2 r]].
    + simpl in Hd. destruct Hd as [Hd|Hd]; [| discriminate].
      destruct a; [| discriminate]. simpl. repeat split; constructor.
    + destruct (Hone y Fb Qb) as (L & F1 & F2). repeat split; auto.
    + destruct Hd as [Hd|Hd]; [| discriminate].
      split; [split |].
      * apply length_zip_with. symmetry; exact Hd.
      * eapply Forall_zip_with with (P := fun x => has_shape sh1 k x /\ tall P k x)
                                    (Q := fun y => has_shape sh1' k y /\ tall Q k y).
        -- intros x y0 [? ?] [? ?]. eapply IH; eauto.
        -- rewrite Forall_forall in *; auto.
        -- rewrite Forall_forall in *; auto.
      * eapply Forall_zip_with with (P := fun x => has_shape sh1 k x /\ tall P k x)
                                    (Q := fun y => has_shape sh1' k y /\ tall Q k y).
        -- intros x y0 [? ?] [? ?]. eapply IH; eauto.
        -- rewrite Forall_forall in *; auto.
        -- rewrite Forall_forall in *; auto.
Qed.

End TensorFacts.

Section ReductionFacts.

Variable P : xr -> Prop.
Hypothesis P_add : forall x y, P x -> P y -> P (xadd x y).

Lemma fold_tadd_spec (k : nat) (sh : list nat) (r : list (tensor k)) :
  forall acc,
    has_shape sh k acc -> tall P k acc ->
    Forall (has_shape sh k) r -> Forall (tall P k) r ->
    has_shape sh k (fold_left (tbin xadd k) r acc) /\
    tall P k (fold_left (tbin xadd k) r acc).
Proof.
  induction r as [|x r IH]; simpl; intros acc Ha Pa Hr Pr; [auto |].
  inversion Hr; inversion Pr; subst.
  destruct (tbin_spec xadd P P P P_add k sh sh acc x) as [Hs Hp];
    auto using bcast_refl.
Qed.

Lemma tadd_all_spec (k : nat) (sh : list nat) (l : list (tensor k)) :
  l <> [] -> Forall (has_shape sh k) l -> Forall (tall P k) l ->
  has_shape sh k (tadd_all k l) /\ tall P k (tadd_all k l).
Proof.
  destruct l as [|x r]; [congruence |]. intros _ Hl Pl.
  inversion Hl; inversion Pl; subst. simpl. apply fold_tadd_spec; assumption.
Qed.

Lemma tsum_spec :
  forall n d sh t,
    has_shape sh n t -> positive_dims sh -> tall P n t ->
    has_shape (keepdim d sh) n (tsum n d t) /\ tall P n (tsum n d t).
Proof.
  induction n as [|k IH]; simpl; intros d sh t Ht Hpos Pt.
  - subst sh. simpl. auto.
  - destruct sh as [|d0 sh']; simpl in *; [contradiction |].
    destruct Ht as [Hl Hf]. inversion Hpos as [|? ? Hd0 Hpos']; subst.
    destruct d as [|d'].
    + assert (Hne : t <> []) by (destruct t; simpl in *; [lia | discriminate]).
      destruct (tadd_all_spec k sh' t Hne Hf Pt) as [Hs Hp].
      repeat split; auto.
    + split; [split |].
      * apply length_map.
      * apply Forall_map. rewrite Forall_forall in Hf, Pt |- *. intros x Hx.
        apply IH; auto.
      * apply Forall_map. rewrite Forall_forall in Hf, Pt |- *. intros x Hx.
        eapply IH; eauto.
Qed.

End ReductionFacts.

Lemma dim_size_shape :
  forall n d sh t,
    has_shape sh n t -> positive_dims sh -> dim_size n d t = nth d sh 1%nat.
Proof.
  induction n as [|k IH]; simpl; intros d sh t Ht Hpos.
  - subst sh. destruct d; reflexivity.
  - destruct sh as [|d0 sh']; simpl in *; [contradiction |].
    destruct Ht as [Hl Hf]. inversion Hpos as [|? ? Hd0 Hpos']; subst.
    destruct d as [|d']; [reflexivity |].
    destruct t as [|x r]; simpl in *; [lia |].
    inversion Hf; subst. apply IH; assumption.
Qed.

Lemma nth_positive_dims (sh : list nat) (d : nat) :
  positive_dims sh -> (0 < nth d sh 1)%nat.
Proof.
  intros H; revert d; induction H as [|x r Hx Hr IH]; intros [|d]; simpl; auto.
Qed.

Lemma axis_m1 (n : nat) : axis (S n) (-1) = n.
Proof. unfold axis. change (-1 <? 0)%Z with true. cbv iota. lia. Qed.

Lemma axis_m2 (n : nat) : axis (S (S n)) (-2) = n.
Proof. unfold axis. change (-2 <? 0)%Z with true. cbv iota. lia. Qed.

Lemma axis_1 (n : nat) : axis n 1 = 1%nat.
Proof. reflexivity. Qed.

(** ** Sinkhorn on a finite cost matrix with uniform marginals *)

Section SinkhornPositive.

Variable k : nat.
Variable sh : list nat.
Hypothesis sh_pos : positive_dims sh.

(** The loop invariant: the shape of the cost matrix, and positive entries. *)
Definition balanced (q : tensor (S (S k))) : Prop :=
  has_shape sh (S (S k)) q /\ tall positive (S (S k)) q.

Lemma balanced_div_sum (d : nat) (q : tensor (S (S k))) :
  balanced q -> balanced (tbin xdiv (S (S k)) q (tsum (S (S k)) d q)).
Proof.
  intros [Hs Hp].
  destruct (tsum_spec positive xadd_positive (S (S k)) d sh q) as [Hs' Hp']; auto.
  apply (tbin_spec xdiv positive positive positive xdiv_positive
           (S (S k)) sh (keepdim d sh)); auto using bcast_keepdim.
Qed.

Lemma balanced_scale (p : xr) (q : tensor (S (S k))) :
  positive p -> balanced q -> balanced (scale (S (S k)) q (Uniform p)).
Proof.
  intros Hp [Hs Hq]. split; unfold scale.
  - apply has_shape_tmap; assumption.
  - apply tall_tmap with (P := positive); auto.
    intros x Hx. apply xmul_positive; assumption.
Qed.

Lemma balanced_init (cost_mat : tensor (S (S k))) (e : R) :
  has_shape sh (S (S k)) cost_mat -> tall finite (S (S k)) cost_mat -> e <> 0 ->
  balanced (sinkhorn_init k cost_mat (Fin e)).
Proof.
  intros Hs Hf He. unfold sinkhorn_init.
  set (q := tmap _ _ cost_mat).
  assert (Hq : balanced q).
  { split; [apply has_shape_tmap; assumption |].
    apply tall_tmap with (P := finite); auto.
    intros c Hc. apply gibbs_positive; assumption. }
  destruct Hq as [Hqs Hqp].
  destruct (tsum_spec positive xadd_positive (S (S k)) (axis (S (S k)) (-1)) sh q)
    as [Hs1 Hp1]; auto.
  destruct (tsum_spec positive xadd_positive (S (S k)) (axis (S (S k)) (-2))
              _ _ Hs1 (positive_dims_keepdim _ _ sh_pos) Hp1) as [Hs2 Hp2].
  apply (tbin_spec xdiv positive positive positive xdiv_positive
           (S (S k)) sh _ q _ Hqs Hs2); auto.
  eapply bcast_trans; apply bcast_keepdim.
Qed.

Lemma balanced_step (r c : xr) (q : tensor (S (S k))) :
  positive r -> positive c -> balanced q ->
  balanced (sinkhorn_step k (Uniform r) (Uniform c) q).
Proof.
  intros Hr Hc Hq. unfold sinkhorn_step.
  apply balanced_scale; [assumption |]. apply balanced_div_sum.
  apply balanced_scale; [assumption |]. apply balanced_div_sum. assumption.
Qed.

Lemma balanced_iter (r c : xr) (n : nat) (q : tensor (S (S k))) :
  positive r -> positive c -> balanced q ->
  balanced (Nat.iter n (sinkhorn_step k (Uniform r) (Uniform c)) q).
Proof.
  intros Hr Hc Hq. induction n as [|n IH]; simpl; [assumption |].
  apply balanced_step; assumption.
Qed.

Lemma py_inv_positive (m : nat) :
  (0 < m)%nat -> exists p, py_inv m = Ok (Fin p) /\ p = 1 / INR m /\ 0 < p.
Proof.
  intros Hm. destruct m as [|m']; [lia |].
  exists (1 / INR (S m')). repeat split. apply Rdiv_lt_0_compat; [lra |].
  apply lt_0_INR. lia.
Qed.

(** With uniform marginals the loop returns, and leaves a matrix of the
    cost matrix's shape with positive entries. *)
Lemma sinkhorn_iterate_balanced (cost_mat : tensor (S (S k))) (e : R) (niter : Z) :
  has_shape sh (S (S k)) cost_mat -> tall finite (S (S k)) cost_mat -> e <> 0 ->
  exists q, sinkhorn_iterate k cost_mat (Fin e) niter None None = Ok q /\ balanced q.
Proof.
  intros Hs Hf He.
  pose proof (balanced_init cost_mat e Hs Hf He) as Hq0.
  unfold sinkhorn_iterate. set (q0 := sinkhorn_init k cost_mat (Fin e)) in *.
  destruct Hq0 as [Hs0 Hp0].
  rewrite !(dim_size_shape _ _ sh q0 Hs0 sh_pos).
  destruct (py_inv_positive _ (nth_positive_dims sh (axis (S (S k)) (-2)) sh_pos))
    as (r & Er & _ & Hr).
  destruct (py_inv_positive _ (nth_positive_dims sh (axis (S (S k)) (-1)) sh_pos))
    as (c & Ec & _ & Hc).
  unfold row_marginal, col_marginal. rewrite Er, Ec. simpl.
  eexists; split; [reflexivity |].
  apply balanced_iter; auto. split; assumption.
Qed.

Lemma sinkhorn_balanced (cost_mat : tensor (S (S k))) (e : R) (niter : Z) :
  has_shape sh (S (S k)) cost_mat -> tall finite (S (S k)) cost_mat -> e <> 0 ->
  exists q, sinkhorn k cost_mat (Fin e) niter None None = Ok q /\ balanced q.
Proof.
  intros Hs Hf He.
  destruct (sinkhorn_iterate_balanced cost_mat e niter Hs Hf He) as (q & Eq & Hq).
  unfold sinkhorn. rewrite Eq. simpl.
  eexists; split; [reflexivity |]. apply balanced_div_sum. assumption.
Qed.

End SinkhornPositive.

(** ** Sums of finite vectors *)

Definition Rsum (l : list R) : R := fold_right Rplus 0 l.

Section VectorSums.

Lemma fold_xadd_fin (r : list xr) :
  Forall finite r ->
  forall a, fold_left xadd r (Fin a) = Fin (a + Rsum (map to_R r)).
Proof.
  induction 1 as [|x r Hx Hr IH]; intros a; simpl.
  - f_equal. lra.
  - destruct x as [b| | |]; simpl in Hx; try contradiction.
    simpl. rewrite IH. f_equal. lra.
Qed.

Lemma xsum_fin (l : list xr) :
  Forall finite l -> xsum l = Fin (Rsum (map to_R l)).
Proof.
  intros H. destruct H as [|x r Hx Hr]; [reflexivity |].
  destruct x as [a| | |]; simpl in Hx; try contradiction.
  unfold xsum. simpl. apply fold_xadd_fin. assumption.
Qed.

Lemma Rsum_div (s : R) (l : list R) :
  Rsum (map (fun a => a / s) l) = Rsum l / s.
Proof.
  induction l as [|a l IH]; simpl; [lra |]. rewrite IH. lra.
Qed.

Lemma Rsum_nonneg (l : list R) : Forall (fun a => 0 < a) l -> 0 <= Rsum l.
Proof. induction 1; simpl; lra. Qed.

Lemma Rsum_pos (l : list R) : l <> [] -> Forall (fun a => 0 < a) l -> 0 < Rsum l.
Proof.
  intros Hne H. destruct H as [|a l Ha Hl]; [congruence |].
  simpl. pose proof (Rsum_nonneg l Hl). lra.
Qed.

Lemma Rsum_bound (l : list R) (a : R) :
  Forall (fun b => 0 < b) l -> In a l -> a <= Rsum l.
Proof.
  induction 1 as [|b l Hb Hl IH]; simpl; [tauto |].
  pose proof (Rsum_nonneg l Hl). intros [->|Hin]; [lra |].
  specialize (IH Hin). lra.
Qed.

Lemma positive_to_R (l : list xr) :
  Forall positive l -> Forall (fun a => 0 < a) (map to_R l).
Proof.
  intros H. apply Forall_map. eapply Forall_impl; [| exact H].
  intros [a| | |]; simpl; tauto.
Qed.

Lemma positive_all_finite (l : list xr) : Forall positive l -> Forall finite l.
Proof. apply Forall_impl, positive_finite. Qed.

(** A positive vector divided by its own sum: every entry lands in (0, 1]
    and the entries add up to one. *)
Lemma normalized_row (row : list xr) :
  row <> [] -> Forall positive row ->
  xsum (map (fun x => xdiv x (xsum row)) row) = Fin 1 /\
  Forall positive (map (fun x => xdiv x (xsum row)) row) /\
  Forall (between 0 1) (map (fun x => xdiv x (xsum row)) row).
Proof.
  intros Hne Hpos.
  pose proof (positive_to_R row Hpos) as HposR.
  assert (Hs : 0 < Rsum (map to_R row)).
  { apply Rsum_pos; [| assumption]. destruct row; [congruence | discriminate]. }
  rewrite (xsum_fin row (positive_all_finite row Hpos)).
  set (s := Rsum (map to_R row)) in *.
  assert (Hmap : map (fun x => xdiv x (Fin s)) row
                 = map (fun x => Fin (to_R x / s)) row).
  { apply map_ext_in. intros x Hx. rewrite Forall_forall in Hpos.
    specialize (Hpos x Hx). destruct x as [a| | |]; simpl in Hpos; try contradiction.
    simpl to_R. apply xdiv_fin. lra. }
  rewrite Hmap. split; [| split].
  - rewrite xsum_fin.
    + rewrite map_map. simpl to_R.
      rewrite <- (map_map to_R (fun a => a / s)), Rsum_div.
      fold s. f_equal. field. lra.
    + apply Forall_map, Forall_forall. intros; exact I.
  - apply Forall_map, Forall_forall. intros x Hx. simpl.
    rewrite Forall_forall in Hpos. specialize (Hpos x Hx).
    destruct x as [a| | |]; simpl in Hpos; try contradiction.
    simpl. apply Rdiv_lt_0_compat; assumption.
  - apply Forall_map, Forall_forall. intros x Hx. simpl.
    assert (Hle : to_R x <= s) by (apply Rsum_bound; [assumption | now apply in_map]).
    rewrite Forall_forall in Hpos. specialize (Hpos x Hx).
    destruct x as [a| | |]; simpl in Hpos; try contradiction. simpl in *.
    split.
    + apply Rlt_le, Rdiv_lt_0_compat; assumption.
    + apply (Rmult_le_reg_r s); [assumption |].
      unfold Rdiv. rewrite Rmult_assoc, Rinv_l by lra. lra.
Qed.

End VectorSums.

(** ** Row normalization of a matrix *)

Lemma zip_with_map_r {A B C : Type} (f : A -> B -> C) (g : A -> B) (l : list A) :
  zip_with f l (map g l) = map (fun x => f x (g x)) l.
Proof. induction l as [|x r IH]; simpl; [reflexivity |]. now rewrite IH. Qed.

(** Dividing a matrix by its [sum(dim=1, keepdim=True)] divides every row by
    the sum of that row. *)
Lemma row_normalize_rows (q : tensor 2) :
  row_normalize q = map (fun row => map (fun x => xdiv x (xsum row)) row) q.
Proof.
  unfold row_normalize. rewrite axis_1. simpl tsum.
  change (tbin xdiv 2 q (map (fun row : list xr => [xsum row]) q)
          = map (fun row => map (fun x => xdiv x (xsum row)) row) q).
  destruct q as [|r1 [|r2 rest]]; [reflexivity | reflexivity |].
  change (zip_with (tbin xdiv 1) (r1 :: r2 :: rest)
            (map (fun row : list xr => [xsum row]) (r1 :: r2 :: rest))
          = map (fun row => map (fun x => xdiv x (xsum row)) row) (r1 :: r2 :: rest)).
  rewrite zip_with_map_r. reflexivity.
Qed.

Lemma sinkhorn_final_rows (q : tensor 2) :
  sinkhorn_final 0 q = map (fun row => map (fun x => xdiv x (xsum row)) row) q.
Proof. exact (row_normalize_rows q). Qed.

(** Row normalization of a positive matrix with at least one column. *)
Lemma row_normalize_positive (M N : nat) (q : tensor 2) :
  (0 < N)%nat -> has_shape [M; N] 2 q -> tall positive 2 q ->
  has_shape [M; N] 2 (row_normalize q) /\
  tall positive 2 (row_normalize q) /\
  tall (between 0 1) 2 (row_normalize q) /\
  Forall (fun row => xsum row = Fin 1) (row_normalize q).
Proof.
  intros HN [Hl Hrows] Hpos. rewrite row_normalize_rows.
  simpl in Hrows, Hpos.
  assert (Hrow : forall row, In row q ->
            length row = N /\ row <> [] /\ Forall positive row).
  { intros row Hin. rewrite Forall_forall in Hrows, Hpos.
    destruct (Hrows row Hin) as [Hlen _]. repeat split; auto.
    destruct row; simpl in Hlen; [lia | discriminate]. }
  split; [split |]; [now rewrite length_map | |];
    [| split; [| split]]; apply Forall_map, Forall_forall; intros row Hin;
    destruct (Hrow row Hin) as (Hlen & Hne & Hp);
    destruct (normalized_row row Hne Hp) as (H1 & H2 & H3); auto.
  simpl. split; [now rewrite length_map |].
  apply Forall_map, Forall_forall. intros; reflexivity.
Qed.

(** A binary operation against a slice-wise reduction of the left operand
    acts slice by slice, whatever the number of slices. *)
Lemma tbin_map_r (f : xr -> xr -> xr) (k : nat) (g : tensor k -> tensor k)
  (q : tensor (S k)) :
  tbin f (S k) q (map g q) = map (fun x => tbin f k x (g x)) q.
Proof.
  destruct q as [|x1 [|x2 rest]]; [reflexivity | reflexivity |].
  change (zip_with (tbin f k) (x1 :: x2 :: rest) (map g (x1 :: x2 :: rest))
          = map (fun x => tbin f k x (g x)) (x1 :: x2 :: rest)).
  apply zip_with_map_r.
Qed.

(** ** Concrete evaluation *)

Ltac xr_step :=
  cbn -[xdiv Rplus Rmult Rdiv Ropp Rinv exp INR IZR];
  repeat (rewrite xdiv_fin by lra).

Ltac xr_eval := repeat progress xr_step.

Ltac xr_close :=
  repeat match goal with
    | |- Fin _ = Fin _ => apply f_equal; first [lra | field; lra | field]
    | |- _ :: _ = _ :: _ => apply f_equal2
    | |- [] = [] => reflexivity
    | |- Ok _ = Ok _ => apply f_equal
    end.

Lemma exp_neg_0_1 : exp (- 0 / 1) = 1.
Proof. replace (- 0 / 1) with 0 by lra. apply exp_0. Qed.

(** A one-row cost matrix of zeros, at temperature 1. *)
Definition zeros_1x2 : tensor 2 := [[Fin 0; Fin 0]].
Definition halves_1x2 : tensor 2 := [[Fin (1 / 2); Fin (1 / 2)]].

Lemma sinkhorn_init_zeros_1x2 : sinkhorn_init 0 zeros_1x2 (Fin 1) = halves_1x2.
Proof.
  unfold sinkhorn_init, zeros_1x2, halves_1x2. rewrite axis_m1, axis_m2.
  xr_eval. rewrite exp_neg_0_1. xr_eval. xr_close.
Qed.

Lemma sinkhorn_step_halves_1x2 :
  sinkhorn_step 0 (Uniform (Fin (1 / 1))) (Uniform (Fin (1 / (1 + 1)))) halves_1x2
  = halves_1x2.
Proof.
  unfold sinkhorn_step, halves_1x2. rewrite axis_m1, axis_m2.
  xr_eval. xr_close.
Qed.

Lemma sinkhorn_iterate_zeros_1x2 :
  sinkhorn_iterate 0 zeros_1x2 (Fin 1) 1 None None = Ok halves_1x2.
Proof.
  unfold sinkhorn_iterate. rewrite sinkhorn_init_zeros_1x2, axis_m1, axis_m2.
  change (Z.to_nat 1) with 1%nat.
  cbn -[sinkhorn_step xdiv xmul xadd Rplus Rmult Rdiv Ropp Rinv exp IZR].
  rewrite sinkhorn_step_halves_1x2. reflexivity.
Qed.

(** * The final step of Sinkhorn and the row sums *)

(** C1 (as amended): the final step of [sinkhorn] divides the iterated
    matrix by its sum over axis 1 counted from the front.  On a 2D input
    that is the last axis, so every row is divided by its own sum; on an
    input with one leading batch dimension it is the second-to-last axis, so
    every matrix of the batch is divided by its column sums. *)
Theorem sinkhorn_final_axis :
  (forall k cost_mat eps niter r_prob c_prob,
      sinkhorn k cost_mat eps niter r_prob c_prob
      = (q <- sinkhorn_iterate k cost_mat eps niter r_prob c_prob ;;
         Ok (tbin xdiv (S (S k)) q (tsum (S (S k)) 1 q)))) /\
  (forall q : tensor 2,
      sinkhorn_final 0 q = tbin xdiv 2 q (tsum 2 (axis 2 (-1)) q) /\
      sinkhorn_final 0 q = map (fun row => map (fun x => xdiv x (xsum row)) row) q) /\
  (forall q : tensor 3,
      sinkhorn_final 1 q = tbin xdiv 3 q (tsum 3 (axis 3 (-2)) q) /\
      sinkhorn_final 1 q
      = map (fun mat => tbin xdiv 2 mat (tsum 2 (axis 2 (-2)) mat)) q).
Proof.
  split; [| split].
  - intros. reflexivity.
  - intros q. split; [reflexivity | apply sinkhorn_final_rows].
  - intros q. split; [reflexivity |].
    unfold sinkhorn_final. rewrite axis_1.
    change (tsum 3 1 q) with (map (tsum 2 0) q).
    rewrite tbin_map_r. reflexivity.
Qed.

(** C1 (as stated) fails on a 2D input: for the 1x2 cost matrix of zeros the
    loop leaves [[1/2, 1/2]], which [sinkhorn] returns unchanged (each row
    divided by its sum), whereas dividing by the sum over axis -2 would give
    [[1, 1]]. *)
Lemma sinkhorn_final_axis_counterexample :
  sinkhorn_iterate 0 zeros_1x2 (Fin 1) 1 None None = Ok halves_1x2 /\
  sinkhorn 0 zeros_1x2 (Fin 1) 1 None None = Ok halves_1x2 /\
  tbin xdiv 2 halves_1x2 (tsum 2 (axis 2 (-2)) halves_1x2) = [[Fin 1; Fin 1]] /\
  sinkhorn 0 zeros_1x2 (Fin 1) 1 None None
  <> Ok (tbin xdiv 2 halves_1x2 (tsum 2 (axis 2 (-2)) halves_1x2)).
Proof.
  assert (H1 : sinkhorn 0 zeros_1x2 (Fin 1) 1 None None = Ok halves_1x2).
  { unfold sinkhorn. rewrite sinkhorn_iterate_zeros_1x2. simpl bind.
    rewrite sinkhorn_final_rows. unfold halves_1x2.
    xr_eval. xr_close. }
  assert (H2 : tbin xdiv 2 halves_1x2 (tsum 2 (axis 2 (-2)) halves_1x2)
               = [[Fin 1; Fin 1]]).
  { rewrite axis_m2. unfold halves_1x2. xr_eval. xr_close. }
  repeat split; auto using sinkhorn_iterate_zeros_1x2.
  rewrite H1, H2. unfold halves_1x2. intros E.
  injection E as E. lra.
Qed.



(** ** Transposition and matrix products *)

Section Matrices.

Lemma map_nth_seq {A : Type} (d : A) (l : list A) :
  map (fun i => nth i l d) (seq 0 (length l)) = l.
Proof.
  induction l as [|x r IH]; [reflexivity |].
  simpl. f_equal. rewrite <- seq_shift, map_map. exact IH.
Qed.

Lemma has_shape_rows (N D : nat) (x : tensor 2) :
  has_shape [N; D] 2 x <-> length x = N /\ Forall (fun row => length row = D) x.
Proof.
  simpl. split; intros [Hl Hr]; split; auto;
    rewrite Forall_forall in Hr |- *; intros row Hin; specialize (Hr row Hin).
  - tauto.
  - split; [assumption |]. apply Forall_forall. intros; reflexivity.
Qed.

Lemma nth_row_length (N D : nat) (x : tensor 2) (i : nat) :
  has_shape [N; D] 2 x -> (i < N)%nat -> length (nth i x []) = D.
Proof.
  intros Hs Hi. apply has_shape_rows in Hs. destruct Hs as [Hl Hr].
  rewrite Forall_forall in Hr. apply Hr, nth_In. lia.
Qed.

Lemma t_rows (N D : nat) (x : tensor 2) :
  (0 < N)%nat -> has_shape [N; D] 2 x ->
  t x = map (fun j => map (fun row => nth j row (Fin 0)) x) (seq 0 D) /\
  has_shape [D; N] 2 (t x).
Proof.
  intros HN Hs.
  assert (Hd : dim_size 2 1 x = D).
  { destruct Hs as [Hl Hr]. destruct x as [|row rest]; simpl in *; [lia |].
    inversion Hr; subst. tauto. }
  unfold t. rewrite Hd. split; [reflexivity |].
  apply has_shape_rows. rewrite length_map, length_seq. split; [reflexivity |].
  apply Forall_map, Forall_forall. intros j _. rewrite length_map.
  apply has_shape_rows in Hs. tauto.
Qed.

Lemma t_involutive (N D : nat) (x : tensor 2) :
  (0 < N)%nat -> (0 < D)%nat -> has_shape [N; D] 2 x -> t (t x) = x.
Proof.
  intros HN HD Hs.
  destruct (t_rows N D x HN Hs) as [Et Hts].
  destruct (t_rows D N (t x) HD Hts) as [Ett _].
  rewrite Ett, Et.
  assert (Hl : length x = N) by (apply has_shape_rows in Hs; tauto).
  transitivity (map (fun i => nth i x []) (seq 0 N));
    [| rewrite <- Hl; apply map_nth_seq].
  apply map_ext_in. intros i Hi. apply in_seq in Hi.
  rewrite map_map.
  transitivity (map (fun j => nth j (nth i x []) (Fin 0)) (seq 0 D));
    [| rewrite <- (nth_row_length N D x i Hs) by lia; apply map_nth_seq].
  apply map_ext_in. intros j Hj.
  rewrite (nth_indep _ (Fin 0) (nth j [] (Fin 0))) by (rewrite length_map; lia).
  rewrite (map_nth (fun row => nth j row (Fin 0))). reflexivity.
Qed.

End Matrices.

Section Similarities.

Lemma matmul_t (M D : nat) (a b : tensor 2) :
  (0 < M)%nat -> (0 < D)%nat -> has_shape [M; D] 2 b ->
  matmul a (t b) = map (fun row => map (dot row) b) a.
Proof.
  intros HM HD Hb. unfold matmul. rewrite (t_involutive M D b HM HD Hb).
  reflexivity.
Qed.

Lemma zip_with_comm {A B : Type} (f : A -> A -> B)
  (Hf : forall x y, f x y = f y x) (u v : list A) :
  zip_with f u v = zip_with f v u.
Proof.
  revert v; induction u as [|x u IH]; intros [|y v]; simpl; try reflexivity.
  rewrite Hf, IH. reflexivity.
Qed.

Lemma dot_comm (u v : list xr) : dot u v = dot v u.
Proof. unfold dot. now rewrite (zip_with_comm xmul xmul_comm u v). Qed.

Lemma dot_finite (u v : list xr) :
  Forall finite u -> Forall finite v -> finite (dot u v).
Proof.
  intros Hu Hv. unfold dot. rewrite xsum_fin; [exact I |].
  apply (Forall_zip_with xmul finite finite finite xmul_finite); assumption.
Qed.

(** The matrix of the dot products of the rows of [a] with the rows of [b]. *)
Definition gram (a b : tensor 2) : tensor 2 :=
  map (fun row => map (dot row) b) a.

Lemma gram_entry (a b : tensor 2) (i j : nat) :
  (i < length a)%nat -> (j < length b)%nat ->
  nth j (nth i (gram a b) []) (Fin 0) = dot (nth i a []) (nth j b []).
Proof.
  intros Hi Hj. unfold gram.
  rewrite (nth_indep _ [] (map (dot []) b)) by (rewrite length_map; lia).
  rewrite (map_nth (fun row => map (dot row) b)).
  rewrite (nth_indep _ (Fin 0) (dot (nth i a []) [])) by (rewrite length_map; lia).
  rewrite (map_nth (dot (nth i a []))). reflexivity.
Qed.

Lemma gram_shape (N M : nat) (a b : tensor 2) :
  length a = N -> length b = M -> has_shape [N; M] 2 (gram a b).
Proof.
  intros La Lb. apply has_shape_rows. unfold gram. rewrite length_map.
  split; [exact La |].
  apply Forall_map, Forall_forall. intros row _. rewrite length_map. exact Lb.
Qed.

Lemma gram_finite (a b : tensor 2) :
  tall finite 2 a -> tall finite 2 b -> tall finite 2 (gram a b).
Proof.
  simpl. intros Ha Hb. unfold gram. apply Forall_map.
  eapply Forall_impl; [| exact Ha]. intros u Hu. apply Forall_map.
  eapply Forall_impl; [| exact Hb]. intros v Hv. apply dot_finite; assumption.
Qed.

Lemma compute_similarities_gram (N M D : nat) (i_emb t_emb : tensor 2) :
  (0 < N)%nat -> (0 < M)%nat -> (0 < D)%nat ->
  has_shape [N; D] 2 i_emb -> has_shape [M; D] 2 t_emb ->
  compute_similarities i_emb t_emb
  = (gram i_emb i_emb, gram t_emb t_emb, gram i_emb t_emb, gram t_emb i_emb).
Proof.
  intros HN HM HD Hi Ht. unfold compute_similarities.
  rewrite !(matmul_t N D _ i_emb HN HD Hi), !(matmul_t M D _ t_emb HM HD Ht).
  reflexivity.
Qed.

Lemma t_gram (N M D : nat) (a b : tensor 2) :
  (0 < N)%nat -> (0 < M)%nat ->
  has_shape [N; D] 2 a -> has_shape [M; D] 2 b ->
  t (gram a b) = gram b a.
Proof.
  intros HN HM Ha Hb.
  assert (La : length a = N) by (apply has_shape_rows in Ha; tauto).
  assert (Lb : length b = M) by (apply has_shape_rows in Hb; tauto).
  pose proof (gram_shape N M a b La Lb) as Hg.
  destruct (t_rows N M (gram a b) HN Hg) as [Et _]. rewrite Et.
  transitivity (map (fun j => map (dot (nth j b [])) a) (seq 0 M)).
  2:{ rewrite <- Lb.
      rewrite <- (map_map (fun j => nth j b []) (fun row => map (dot row) a)).
      rewrite map_nth_seq. reflexivity. }
  apply map_ext_in. intros j Hj. apply in_seq in Hj.
  unfold gram. rewrite map_map. apply map_ext. intros row.
  rewrite (nth_indep _ (Fin 0) (dot row [])) by (rewrite length_map; lia).
  rewrite (map_nth (dot row)). apply dot_comm.
Qed.

End Similarities.

(** C8: for embedding batches of the same embedding dimension,
    [compute_similarities] returns the four matrices of dot products: entry
    (i, j) of [sim_ii] pairs image rows i and j, of [sim_tt] text rows i and
    j, of [sim_it] image row i with text row j; [sim_ti] is the transpose of
    [sim_it]; hence [sim_ii] and [sim_tt] are symmetric. *)
Theorem compute_similarities_spec (N M D : nat) (i_emb t_emb : tensor 2) :
  (0 < N)%nat -> (0 < M)%nat -> (0 < D)%nat ->
  has_shape [N; D] 2 i_emb -> has_shape [M; D] 2 t_emb ->
  exists sim_ii sim_tt sim_it sim_ti,
    compute_similarities i_emb t_emb = (sim_ii, sim_tt, sim_it, sim_ti) /\
    has_shape [N; N] 2 sim_ii /\ has_shape [M; M] 2 sim_tt /\
    has_shape [N; M] 2 sim_it /\ has_shape [M; N] 2 sim_ti /\
    (forall i j, (i < N)%nat -> (j < N)%nat ->
       nth j (nth i sim_ii []) (Fin 0) = dot (nth i i_emb []) (nth j i_emb [])) /\
    (forall i j, (i < M)%nat -> (j < M)%nat ->
       nth j (nth i sim_tt []) (Fin 0) = dot (nth i t_emb []) (nth j t_emb [])) /\
    (forall i j, (i < N)%nat -> (j < M)%nat ->
       nth j (nth i sim_it []) (Fin 0) = dot (nth i i_emb []) (nth j t_emb [])) /\
    sim_ti = t sim_it /\
    (forall i j, (i < N)%nat -> (j < N)%nat ->
       nth j (nth i sim_ii []) (Fin 0) = nth i (nth j sim_ii []) (Fin 0)) /\
    (forall i j, (i < M)%nat -> (j < M)%nat ->
       nth j (nth i sim_tt []) (Fin 0) = nth i (nth j sim_tt []) (Fin 0)).
Proof.
  intros HN HM HD Hi Ht.
  assert (Li : length i_emb = N) by (apply has_shape_rows in Hi; tauto).
  assert (Lt : length t_emb = M) by (apply has_shape_rows in Ht; tauto).
  exists (gram i_emb i_emb), (gram t_emb t_emb), (gram i_emb t_emb), (gram t_emb i_emb).
  split; [apply (compute_similarities_gram N M D); assumption |].
  pose proof (gram_shape N N i_emb i_emb Li Li) as S1.
  pose proof (gram_shape M M t_emb t_emb Lt Lt) as S2.
  pose proof (gram_shape N M i_emb t_emb Li Lt) as S3.
  pose proof (gram_shape M N t_emb i_emb Lt Li) as S4.
  repeat match goal with |- _ /\ _ => split end; try assumption.
  - intros i j Hi' Hj'. apply gram_entry; lia.
  - intros i j Hi' Hj'. apply gram_entry; lia.
  - intros i j Hi' Hj'. apply gram_entry; lia.
  - symmetry. apply (t_gram N M D); assumption.
  - intros i j Hi' Hj'. rewrite !gram_entry by lia. apply dot_comm.
  - intros i j Hi' Hj'. rewrite !gram_entry by lia. apply dot_comm.
Qed.

Lemma compute_similarities_spec_witness :
  exists sim_ii sim_tt sim_it sim_ti,
    compute_similarities [[Fin 1; Fin 2; Fin 3]; [Fin 4; Fin 5; Fin 6]]
                         [[Fin 1; Fin 0; Fin 1]; [Fin 0; Fin 1; Fin 0]]
    = (sim_ii, sim_tt, sim_it, sim_ti) /\
    has_shape [2; 2]%nat 2 sim_ii /\ has_shape [2; 2]%nat 2 sim_tt /\
    has_shape [2; 2]%nat 2 sim_it /\ has_shape [2; 2]%nat 2 sim_ti /\
    (forall i j, (i < 2)%nat -> (j < 2)%nat ->
       nth j (nth i sim_ii []) (Fin 0)
       = dot (nth i [[Fin 1; Fin 2; Fin 3]; [Fin 4; Fin 5; Fin 6]] [])
             (nth j [[Fin 1; Fin 2; Fin 3]; [Fin 4; Fin 5; Fin 6]] [])) /\
    (forall i j, (i < 2)%nat -> (j < 2)%nat ->
       nth j (nth i sim_tt []) (Fin 0)
       = dot (nth i [[Fin 1; Fin 0; Fin 1]; [Fin 0; Fin 1; Fin 0]] [])
             (nth j [[Fin 1; Fin 0; Fin 1]; [Fin 0; Fin 1; Fin 0]] [])) /\
    (forall i j, (i < 2)%nat -> (j < 2)%nat ->
       nth j (nth i sim_it []) (Fin 0)
       = dot (nth i [[Fin 1; Fin 2; Fin 3]; [Fin 4; Fin 5; Fin 6]] [])
             (nth j [[Fin 1; Fin 0; Fin 1]; [Fin 0; Fin 1; Fin 0]] [])) /\
    sim_ti = t sim_it /\
    (forall i j, (i < 2)%nat -> (j < 2)%nat ->
       nth j (nth i sim_ii []) (Fin 0) = nth i (nth j sim_ii []) (Fin 0)) /\
    (forall i j, (i < 2)%nat -> (j < 2)%nat ->
       nth j (nth i sim_tt []) (Fin 0) = nth i (nth j sim_tt []) (Fin 0)).
Proof.
  apply (compute_similarities_spec 2 2 3);
    [lia | lia | lia | simpl; repeat constructor | simpl; repeat constructor].
Defined.

(** ** Teacher targets *)

Section TeacherTargets.

Variables (N D : nat).
Hypothesis N_pos : (0 < N)%nat.
Hypothesis D_pos : (0 < D)%nat.

Variables (i_emb t_emb : tensor 2).
Hypothesis i_shape : has_shape [N; D] 2 i_emb.
Hypothesis t_shape : has_shape [N; D] 2 t_emb.
Hypothesis i_finite : tall finite 2 i_emb.
Hypothesis t_finite : tall finite 2 t_emb.

(** A finite N x N matrix. *)
Definition square_finite (x : tensor 2) : Prop :=
  has_shape [N; N] 2 x /\ tall finite 2 x.

Lemma square_finite_gram (a b : tensor 2) :
  has_shape [N; D] 2 a -> has_shape [N; D] 2 b ->
  tall finite 2 a -> tall finite 2 b -> square_finite (gram a b).
Proof.
  intros Ha Hb Fa Fb. split; [| apply gram_finite; assumption].
  apply gram_shape; [apply has_shape_rows in Ha | apply has_shape_rows in Hb]; tauto.
Qed.

Lemma square_finite_tmap (f : xr -> xr) (x : tensor 2) :
  (forall e, finite e -> finite (f e)) -> square_finite x -> square_finite (tmap f 2 x).
Proof.
  intros Hf [Hs Hx]. split; [apply has_shape_tmap; assumption |].
  apply tall_tmap with (P := finite); assumption.
Qed.

Lemma square_finite_tbin (f : xr -> xr -> xr) (x y : tensor 2) :
  (forall a b, finite a -> finite b -> finite (f a b)) ->
  square_finite x -> square_finite y -> square_finite (tbin f 2 x y).
Proof.
  intros Hf [Hsx Hx] [Hsy Hy].
  apply (tbin_spec f finite finite finite Hf 2 [N; N] [N; N]);
    auto using bcast_refl.
Qed.

Lemma square_finite_eye : square_finite (eye N N).
Proof.
  split.
  - apply has_shape_rows. unfold eye. rewrite length_map, length_seq.
    split; [reflexivity |]. apply Forall_map, Forall_forall. intros i _.
    now rewrite length_map, length_seq.
  - simpl. unfold eye. apply Forall_map, Forall_forall. intros i _.
    apply Forall_map, Forall_forall. intros j _.
    destruct (Nat.eqb i j); exact I.
Qed.

Lemma square_dims (x : tensor 2) :
  has_shape [N; N] 2 x -> dim_size 2 0 x = N /\ dim_size 2 1 x = N.
Proof.
  intros Hs.
  assert (Hp : positive_dims [N; N]) by (repeat constructor; assumption).
  rewrite !(dim_size_shape 2 _ [N; N] x Hs Hp). split; reflexivity.
Qed.

Variables (ii_coeff tt_coeff eps remove_diag : R).
Hypothesis eps_nonzero : eps <> 0.
Variable niter : Z.

(** The two matrices the Sinkhorn calls of [compute_teacher_targets] return
    are positive N x N matrices, and the function returns their row
    normalizations, mapped through [x * 2 - 1] in sigmoid mode. *)
Lemma compute_teacher_targets_run (sigmoid_target : bool) :
  exists p_i p_t,
    (has_shape [N; N] 2 p_i /\ tall positive 2 p_i) /\
    (has_shape [N; N] 2 p_t /\ tall positive 2 p_t) /\
    compute_teacher_targets i_emb t_emb (Fin ii_coeff) (Fin tt_coeff) (Fin eps)
      niter (Fin remove_diag) sigmoid_target
    = Ok (if sigmoid_target
          then (tmap (fun e => xsub (xmul e (Fin 2)) (Fin 1)) 2 (row_normalize p_i),
                tmap (fun e => xsub (xmul e (Fin 2)) (Fin 1)) 2 (row_normalize p_t))
          else (row_normalize p_i, row_normalize p_t)).
Proof.
  unfold compute_teacher_targets.
  rewrite (compute_similarities_gram N N D i_emb t_emb N_pos N_pos D_pos i_shape t_shape).
  pose proof (square_finite_gram i_emb i_emb i_shape i_shape i_finite i_finite) as Gii.
  pose proof (square_finite_gram t_emb t_emb t_shape t_shape t_finite t_finite) as Gtt.
  pose proof (square_finite_gram i_emb t_emb i_shape t_shape i_finite t_finite) as Git.
  pose proof (square_finite_gram t_emb i_emb t_shape i_shape t_finite i_finite) as Gti.
  destruct (square_dims (gram i_emb i_emb) (proj1 Gii)) as [E0 E1].
  rewrite E0, E1.
  set (diag := tmap _ 2 (eye N N)).
  assert (Hdiag : square_finite diag).
  { apply square_finite_tmap; [| apply square_finite_eye].
    intros e He. apply xmul_finite; [apply xmul_finite |]; auto; exact I. }
  set (sim_ii := tmap _ 2 (tbin xsub 2 (gram i_emb i_emb) diag)).
  set (sim_tt := tmap _ 2 (tbin xsub 2 (gram t_emb t_emb) diag)).
  assert (Hii : square_finite sim_ii).
  { apply square_finite_tmap; [intros e He; apply xmul_finite; auto; exact I |].
    apply square_finite_tbin; auto using xsub_finite. }
  assert (Htt : square_finite sim_tt).
  { apply square_finite_tmap; [intros e He; apply xmul_finite; auto; exact I |].
    apply square_finite_tbin; auto using xsub_finite. }
  set (images_cost_mat := tmap xneg 2 _).
  set (text_cost_mat := tmap xneg 2 _).
  assert (Hic : square_finite images_cost_mat).
  { apply square_finite_tmap; [apply xneg_finite |].
    repeat apply square_finite_tbin; auto using xadd_finite. }
  assert (Htc : square_finite text_cost_mat).
  { apply square_finite_tmap; [apply xneg_finite |].
    repeat apply square_finite_tbin; auto using xadd_finite. }
  assert (Hp : positive_dims [N; N]) by (repeat constructor; assumption).
  destruct (sinkhorn_balanced 0 [N; N] Hp images_cost_mat eps niter
              (proj1 Hic) (proj2 Hic) eps_nonzero) as (p_i & Ei & Bi).
  destruct (sinkhorn_balanced 0 [N; N] Hp text_cost_mat eps niter
              (proj1 Htc) (proj2 Htc) eps_nonzero) as (p_t & Et & Bt).
  exists p_i, p_t. split; [exact Bi |]. split; [exact Bt |].
  rewrite Ei, Et. simpl bind. destruct sigmoid_target; reflexivity.
Qed.

Lemma sigmoid_range (e : xr) :
  between 0 1 e -> between (-1) 1 (xsub (xmul e (Fin 2)) (Fin 1)).
Proof. destruct e as [a| | |]; simpl; try tauto. intros [H0 H1]. lra. Qed.

End TeacherTargets.


Definition unit_2x2 : tensor 2 := [[Fin 1; Fin 0]; [Fin 0; Fin 1]].




(** ** The marginal checks *)

Section MarginalChecks.

Lemma tany_unsqueeze (p : xr -> bool) :
  forall n d (x : tensor n), tany p (S n) (unsqueeze n d x) = tany p n x.
Proof.
  induction n as [|k IH]; intros d x.
  - simpl. apply orb_false_r.
  - destruct d as [|d'].
    + simpl. apply orb_false_r.
    + change (existsb (tany p (S k)) (map (unsqueeze k d') x) = existsb (tany p k) x).
      induction x as [|y r IHr]; [reflexivity |].
      cbn [map existsb]. rewrite IH, IHr. reflexivity.
Qed.

Lemma has_nan_or_inf_unsqueeze (n d : nat) (x : tensor n) :
  _has_nan_or_inf (S n) (unsqueeze n d x) = _has_nan_or_inf n x.
Proof. unfold _has_nan_or_inf. now rewrite !tany_unsqueeze. Qed.

Lemma tall_True : forall n (x : tensor n), tall (fun _ => True) n x.
Proof.
  induction n as [|k IH]; simpl; intros x; [exact I |].
  apply Forall_forall. intros; apply IH.
Qed.

(** The initial matrix has the shape of the cost matrix, whatever its
    entries. *)
Lemma sinkhorn_init_shape (k : nat) (sh : list nat) (cost_mat : tensor (S (S k)))
  (eps : xr) :
  positive_dims sh -> has_shape sh (S (S k)) cost_mat ->
  has_shape sh (S (S k)) (sinkhorn_init k cost_mat eps).
Proof.
  intros Hp Hs. unfold sinkhorn_init. set (q := tmap _ _ cost_mat).
  assert (Hq : has_shape sh (S (S k)) q) by (apply has_shape_tmap; assumption).
  destruct (tsum_spec (fun _ => True) (fun _ _ _ _ => I) (S (S k))
              (axis (S (S k)) (-1)) sh q Hq Hp (tall_True _ q)) as [Hs1 _].
  destruct (tsum_spec (fun _ => True) (fun _ _ _ _ => I) (S (S k))
              (axis (S (S k)) (-2)) _ _ Hs1 (positive_dims_keepdim _ _ Hp)
              (tall_True _ _)) as [Hs2 _].
  apply (tbin_spec xdiv (fun _ => True) (fun _ => True) (fun _ => True)
           (fun _ _ _ _ => I) (S (S k)) sh _ q _ Hq Hs2);
    auto using tall_True.
  eapply bcast_trans; apply bcast_keepdim.
Qed.

Lemma py_inv_ok (m : nat) : (0 < m)%nat -> exists p, py_inv m = Ok p.
Proof. destruct m; [lia |]. intros _. eexists; reflexivity. Qed.

Lemma xdiv_0_0 : xdiv (Fin 0) (Fin 0) = NaN.
Proof.
  unfold xdiv, Rsign. destruct (Req_dec_T 0 0) as [_ | H]; [reflexivity |].
  exfalso. apply H. reflexivity.
Qed.

Lemma zero_marginal_has_nan :
  _has_nan_or_inf 1 (normalize_prob 0 [Fin 0]) = true.
Proof.
  unfold normalize_prob. rewrite axis_m1.
  change (tbin xdiv 1 [Fin 0] (tsum 1 0 [Fin 0])) with [xdiv (Fin 0) (Fin 0)].
  rewrite xdiv_0_0. reflexivity.
Qed.

End MarginalChecks.

(** A row marginal of zeros normalizes to 0/0 and trips the check. *)
Example sinkhorn_zero_marginal_raises :
  sinkhorn 0 zeros_1x2 (Fin 1) 1 (Some [Fin 0]) None = Raise AssertionError.
Proof.
  unfold sinkhorn, sinkhorn_iterate, row_marginal.
  rewrite has_nan_or_inf_unsqueeze, zero_marginal_has_nan.
  reflexivity.
Qed.

(** C4: on a cost matrix whose dimensions are all positive, [sinkhorn]
    raises the assertion error (the spec's NumericalError) exactly when a
    supplied row or column marginal, once divided by its sum along its last
    axis, contains a NaN or an infinity; with no marginal supplied it
    returns. *)
Theorem sinkhorn_assertion_iff (k : nat) (sh : list nat)
  (cost_mat : tensor (S (S k))) (eps : xr) (niter : Z)
  (r_prob c_prob : option (tensor (S k))) :
  positive_dims sh -> has_shape sh (S (S k)) cost_mat ->
  (sinkhorn k cost_mat eps niter r_prob c_prob = Raise AssertionError <->
   (exists r, r_prob = Some r /\
              (tany isnan (S k) (normalize_prob k r)
               || tany isinf (S k) (normalize_prob k r)) = true) \/
   (exists c, c_prob = Some c /\
              (tany isnan (S k) (normalize_prob k c)
               || tany isinf (S k) (normalize_prob k c)) = true)) /\
  (exists q, sinkhorn k cost_mat eps niter None None = Ok q).
Proof.
  intros Hp Hs.
  pose proof (sinkhorn_init_shape k sh cost_mat eps Hp Hs) as Hq0.
  unfold sinkhorn, sinkhorn_iterate.
  set (q0 := sinkhorn_init k cost_mat eps) in *.
  rewrite !(dim_size_shape _ _ sh q0 Hq0 Hp).
  destruct (py_inv_ok _ (nth_positive_dims sh (axis (S (S k)) (-2)) Hp)) as (pr & Er).
  destruct (py_inv_ok _ (nth_positive_dims sh (axis (S (S k)) (-1)) Hp)) as (pc & Ec).
  unfold row_marginal, col_marginal.
  split.
  - destruct r_prob as [r|], c_prob as [c|];
      rewrite ?has_nan_or_inf_unsqueeze, ?Er, ?Ec;
      unfold _has_nan_or_inf; simpl bind;
      repeat match goal with
        | |- context [if ?b then _ else _] => destruct b eqn:?; simpl bind
        end;
      (split;
       [ intros H; try discriminate H;
         first [ left; eexists; split; [reflexivity | assumption]
               | right; eexists; split; [reflexivity | assumption] ]
       | intros [(x & E & Hx) | (x & E & Hx)];
         try discriminate E; try (injection E as <-); try reflexivity;
         match goal with
         | Ht : _ = true, Hf : _ = false |- _ =>
             exact (False_ind _ (diff_true_false (eq_trans (eq_sym Ht) Hf)))
         end ]).
  - rewrite Er, Ec. simpl. eexists; reflexivity.
Qed.

Lemma sinkhorn_assertion_iff_witness :
  (sinkhorn 0 zeros_1x2 (Fin 1) 1 (Some [Fin 0]) None = Raise AssertionError <->
   (exists r, Some [Fin 0] = Some r /\
              (tany isnan 1 (normalize_prob 0 r)
               || tany isinf 1 (normalize_prob 0 r)) = true) \/
   (exists c, None = Some c /\
              (tany isnan 1 (normalize_prob 0 c)
               || tany isinf 1 (normalize_prob 0 c)) = true)) /\
  (exists q, sinkhorn 0 zeros_1x2 (Fin 1) 1 None None = Ok q).
Proof.
  apply (sinkhorn_assertion_iff 0 [1; 2]%nat);
    [repeat constructor | simpl; repeat constructor].
Defined.

(** ** The MSE reducer *)

Section Reductions.

Open Scope string_scope.

Lemma str_in_In (s : string) (l : list string) : str_in s l = true <-> In s l.
Proof.
  unfold str_in. rewrite existsb_exists. split.
  - intros (x & Hx & E). apply String.eqb_eq in E. now subst.
  - intros H. exists s. split; [assumption | apply String.eqb_refl].
Qed.

Variables ii it tt st : tensor 2.

(** The stacked vector of the three losses. *)
Definition mse_tensor : list xr := [mse_loss ii st; mse_loss it st; mse_loss tt st].

Lemma reduction_mean (r : string) :
  In r ["mean"; "average"; "avg"; "sum"; "add"] ->
  compute_mse_similarities ii it tt st r = Ok (Scalar (mean mse_tensor)).
Proof.
  intros H. repeat (destruct H as [<- | H]; [reflexivity |]). contradiction.
Qed.

Lemma reduction_none :
  compute_mse_similarities ii it tt st "none" = Ok (Stacked mse_tensor).
Proof. reflexivity. Qed.

Lemma reduction_invalid (r : string) :
  ~ In r REDUCTIONS ->
  compute_mse_similarities ii it tt st r = Raise (ValueError REDUCTIONS r).
Proof.
  intros H. unfold compute_mse_similarities.
  destruct (str_in r REDUCTIONS) eqn:E; [| reflexivity].
  apply str_in_In in E. contradiction.
Qed.

End Reductions.

Open Scope string_scope.


(** C6: with reduction "sum" or "add", [compute_mse_similarities] returns the
    arithmetic mean of the three stacked losses, the very value reduction
    "mean" gives, and not their sum: for losses 1, 0, 0 it returns 1/3. *)
Theorem compute_mse_similarities_sum_is_mean :
  (forall ii it tt st : tensor 2,
      compute_mse_similarities ii it tt st "sum"
      = Ok (Scalar (mean [mse_loss ii st; mse_loss it st; mse_loss tt st])) /\
      compute_mse_similarities ii it tt st "add"
      = Ok (Scalar (mean [mse_loss ii st; mse_loss it st; mse_loss tt st])) /\
      compute_mse_similarities ii it tt st "sum"
      = compute_mse_similarities ii it tt st "mean" /\
      compute_mse_similarities ii it tt st "add"
      = compute_mse_similarities ii it tt st "mean") /\
  (compute_mse_similarities [[Fin 1]] [[Fin 0]] [[Fin 0]] [[Fin 0]] "none"
   = Ok (Stacked [Fin 1; Fin 0; Fin 0]) /\
   compute_mse_similarities [[Fin 1]] [[Fin 0]] [[Fin 0]] [[Fin 0]] "sum"
   = Ok (Scalar (Fin (1 / 3))) /\
   xsum [Fin 1; Fin 0; Fin 0] = Fin 1).
Proof.
  split; [intros; repeat split; reflexivity |].
  assert (E1 : mse_loss [[Fin 1]] [[Fin 0]] = Fin 1).
  { unfold mse_loss. cbn -[xdiv Rplus Rmult Rdiv Ropp Rinv exp IZR].
    rewrite xdiv_fin by lra. xr_close. }
  assert (E0 : mse_loss [[Fin 0]] [[Fin 0]] = Fin 0).
  { unfold mse_loss. cbn -[xdiv Rplus Rmult Rdiv Ropp Rinv exp IZR].
    rewrite xdiv_fin by lra. xr_close. }
  split; [| split].
  - rewrite reduction_none. unfold mse_tensor. now rewrite E1, E0.
  - rewrite reduction_mean by (simpl; tauto). unfold mse_tensor.
    rewrite E1, E0. unfold mean. cbn -[xdiv Rplus Rmult Rdiv Ropp Rinv exp IZR].
    rewrite xdiv_fin by lra. do 2 f_equal. xr_close.
  - unfold xsum. simpl. f_equal. lra.
Qed.

Close Scope string_scope.

(** ** Retrieval accuracy *)

Section Argmax.

(** [i] is the first index holding the greatest entry of [v]: no entry beats
    the one at [i], and the one at [i] beats every earlier entry. *)
Definition first_max (v : list xr) (i : nat) : Prop :=
  (i < length v)%nat /\
  (forall j, (j < length v)%nat -> xgt (nth j v NaN) (nth i v NaN) = false) /\
  (forall j, (j < i)%nat -> xgt (nth i v NaN) (nth j v NaN) = true).

Lemma xgt_irrefl (x : xr) : xgt x x = false.
Proof.
  destruct x as [a| | |]; simpl; try reflexivity.
  destruct (Rlt_dec a a); [lra | reflexivity].
Qed.

Lemma xgt_above (x y b : xr) :
  xgt x b = true -> xgt y b = false -> xgt x y = true.
Proof.
  destruct x as [a| | |], y as [c| | |], b as [d| | |]; simpl;
    repeat match goal with |- context [Rlt_dec ?u ?w] => destruct (Rlt_dec u w) end;
    intros; try reflexivity; try discriminate; lra.
Qed.

Lemma xgt_asym (x y : xr) : xgt x y = true -> xgt y x = false.
Proof.
  destruct x as [a| | |], y as [c| | |]; simpl;
    repeat match goal with |- context [Rlt_dec ?u ?w] => destruct (Rlt_dec u w) end;
    intros; try reflexivity; try discriminate; lra.
Qed.

Lemma first_max_unique (v : list xr) (i j : nat) :
  first_max v i -> first_max v j -> i = j.
Proof.
  intros (Hi & Ni & Bi) (Hj & Nj & Bj).
  destruct (Nat.lt_trichotomy i j) as [H | [H | H]]; [| assumption |].
  - specialize (Bj i H). rewrite (Ni j Hj) in Bj. discriminate.
  - specialize (Bi j H). rewrite (Nj i Hi) in Bi. discriminate.
Qed.

Lemma first_max_snoc_win (p : list xr) (bi : nat) (x : xr) :
  first_max p bi -> xgt x (nth bi p NaN) = true ->
  first_max (p ++ [x]) (length p).
Proof.
  intros (Hb & Nb & Bb) Hx.
  assert (Ex : nth (length p) (p ++ [x]) NaN = x).
  { rewrite app_nth2 by lia. now rewrite Nat.sub_diag. }
  unfold first_max. rewrite Ex, length_app. simpl.
  split; [lia |]. split.
  - intros j Hj. destruct (Nat.eq_dec j (length p)) as [-> | Hne].
    + rewrite Ex. apply xgt_irrefl.
    + rewrite app_nth1 by lia. apply xgt_asym.
      apply (xgt_above x _ (nth bi p NaN)); [assumption | apply Nb; lia].
  - intros j Hj. rewrite app_nth1 by lia.
    apply (xgt_above x _ (nth bi p NaN)); [assumption | apply Nb; lia].
Qed.

Lemma first_max_snoc_keep (p : list xr) (bi : nat) (x : xr) :
  first_max p bi -> xgt x (nth bi p NaN) = false ->
  first_max (p ++ [x]) bi.
Proof.
  intros (Hb & Nb & Bb) Hx.
  unfold first_max. rewrite length_app. simpl.
  rewrite (app_nth1 p [x] NaN Hb).
  split; [lia |]. split.
  - intros j Hj. destruct (Nat.eq_dec j (length p)) as [-> | Hne].
    + rewrite app_nth2 by lia. now rewrite Nat.sub_diag.
    + rewrite app_nth1 by lia. apply Nb. lia.
  - intros j Hj. rewrite app_nth1 by lia. apply Bb. assumption.
Qed.

Lemma argmax_from_first_max (r : list xr) :
  forall p bi, first_max p bi ->
    first_max (p ++ r) (argmax_from (nth bi p NaN) bi (length p) r).
Proof.
  induction r as [|x r IH]; intros p bi Hp; simpl.
  - now rewrite app_nil_r.
  - replace (p ++ x :: r) with ((p ++ [x]) ++ r) by (now rewrite <- app_assoc).
    replace (S (length p)) with (length (p ++ [x])) by (rewrite length_app; simpl; lia).
    destruct (xgt x (nth bi p NaN)) eqn:E.
    + pose proof (IH _ _ (first_max_snoc_win p bi x Hp E)) as Hw.
      rewrite app_nth2, Nat.sub_diag in Hw by lia. exact Hw.
    + pose proof (IH _ _ (first_max_snoc_keep p bi x Hp E)) as Hk.
      rewrite app_nth1 in Hk by apply Hp. exact Hk.
Qed.

Lemma argmax1_first_max (v : list xr) : v <> [] -> first_max v (argmax1 v).
Proof.
  destruct v as [|x r]; [congruence |]. intros _.
  apply (argmax_from_first_max r [x] 0%nat).
  repeat split; simpl; try lia.
  intros j Hj. assert (j = 0%nat) by lia. subst. apply xgt_irrefl.
Qed.

Lemma argmax1_iff (v : list xr) (i : nat) :
  v <> [] -> (argmax1 v = i <-> first_max v i).
Proof.
  intros Hv. pose proof (argmax1_first_max v Hv) as H. split.
  - intros <-. assumption.
  - intros Hi. apply (first_max_unique v); assumption.
Qed.

End Argmax.

Section Accuracy.

Lemma count_eq_map (g : nat -> nat) (s : list nat) :
  count_eq (map g s) s = length (filter (fun i => Nat.eqb (g i) i) s).
Proof.
  unfold count_eq. induction s as [|a s IH]; simpl; [reflexivity |].
  destruct (Nat.eqb (g a) a); simpl; now rewrite IH.
Qed.

Variable N : nat.
Hypothesis N_pos : (0 < N)%nat.
Variable logits : tensor 2.
Hypothesis logits_shape : has_shape [N; N] 2 logits.

Lemma logits_length : length logits = N.
Proof. apply has_shape_rows in logits_shape. tauto. Qed.

(** Row [i] and column [j] of the logits. *)
Definition row (i : nat) : list xr := nth i logits [].
Definition column (j : nat) : list xr := map (fun r => nth j r (Fin 0)) logits.

Lemma argmax_rows : argmax logits 1 = map (fun i => argmax1 (row i)) (seq 0 N).
Proof.
  simpl. rewrite <- (map_nth_seq [] logits) at 1.
  rewrite logits_length, map_map. reflexivity.
Qed.

Lemma argmax_columns : argmax logits 0 = map (fun j => argmax1 (column j)) (seq 0 N).
Proof.
  simpl. destruct (t_rows N N logits N_pos logits_shape) as [Et _].
  rewrite Et, map_map. reflexivity.
Qed.

Lemma compute_accuracy_counts (batch_size : Z) :
  compute_accuracy logits batch_size
  = xdiv (xdiv (Fin (INR (length (filter (fun i => Nat.eqb (argmax1 (row i)) i) (seq 0 N))
                          + length (filter (fun j => Nat.eqb (argmax1 (column j)) j)
                                      (seq 0 N)))))
               (Fin 2))
         (Fin (IZR batch_size)).
Proof.
  unfold compute_accuracy.
  rewrite argmax_rows, argmax_columns, logits_length, !count_eq_map. reflexivity.
Qed.

End Accuracy.

(** The 4 x 4 identity and its mirror image. *)
Definition identity_4x4 : tensor 2 :=
  [[Fin 1; Fin 0; Fin 0; Fin 0];
   [Fin 0; Fin 1; Fin 0; Fin 0];
   [Fin 0; Fin 0; Fin 1; Fin 0];
   [Fin 0; Fin 0; Fin 0; Fin 1]].

Definition reversed_4x4 : tensor 2 :=
  [[Fin 0; Fin 0; Fin 0; Fin 1];
   [Fin 0; Fin 0; Fin 1; Fin 0];
   [Fin 0; Fin 1; Fin 0; Fin 0];
   [Fin 1; Fin 0; Fin 0; Fin 0]].

Ltac decide_Rlt :=
  repeat match goal with
    | |- context [Rlt_dec ?a ?b] => destruct (Rlt_dec a b); try lra
    end.

Lemma argmax_identity_4x4 :
  argmax identity_4x4 1 = [0; 1; 2; 3]%nat /\ argmax identity_4x4 0 = [0; 1; 2; 3]%nat.
Proof.
  unfold identity_4x4; split; cbn -[Rlt_dec]; decide_Rlt; reflexivity.
Qed.

Lemma argmax_reversed_4x4 :
  argmax reversed_4x4 1 = [3; 2; 1; 0]%nat /\ argmax reversed_4x4 0 = [3; 2; 1; 0]%nat.
Proof.
  unfold reversed_4x4; split; cbn -[Rlt_dec]; decide_Rlt; reflexivity.
Qed.

(** C7: on an N x N logits matrix [compute_accuracy] returns
    [(acc_i + acc_t) / 2 / batch_size], where [acc_i] counts the rows [i]
    whose argmax is [i] and [acc_t] the columns [j] whose argmax over the
    rows is [j], the argmax being the first index that holds the greatest
    entry; the 4 x 4 identity with [batch_size = 4] gives exactly 1, and the
    reversed diagonal gives 0. *)
Theorem compute_accuracy_spec :
  (forall (N : nat) (logits : tensor 2) (batch_size : Z),
      (0 < N)%nat -> has_shape [N; N] 2 logits ->
      exists acc_i acc_t : nat,
        acc_i = length (filter (fun i => Nat.eqb (argmax1 (row logits i)) i) (seq 0 N)) /\
        acc_t = length (filter (fun j => Nat.eqb (argmax1 (column logits j)) j) (seq 0 N)) /\
        compute_accuracy logits batch_size
        = xdiv (xdiv (Fin (INR (acc_i + acc_t))) (Fin 2)) (Fin (IZR batch_size))) /\
  (forall (v : list xr) (i : nat), v <> [] -> (argmax1 v = i <-> first_max v i)) /\
  compute_accuracy identity_4x4 4 = Fin 1 /\
  compute_accuracy reversed_4x4 4 = Fin 0.
Proof.
  split; [| split; [| split]].
  - intros N logits batch_size HN Hs. eexists _, _.
    split; [reflexivity |]. split; [reflexivity |].
    apply compute_accuracy_counts; assumption.
  - exact argmax1_iff.
  - unfold compute_accuracy. destruct argmax_identity_4x4 as [-> ->].
    cbn -[xdiv Rplus Rmult Rdiv Ropp Rinv exp IZR].
    repeat (rewrite xdiv_fin by lra). xr_close.
  - unfold compute_accuracy. destruct argmax_reversed_4x4 as [-> ->].
    cbn -[xdiv Rplus Rmult Rdiv Ropp Rinv exp IZR].
    repeat (rewrite xdiv_fin by lra). xr_close.
Qed.

Lemma compute_accuracy_spec_witness :
  exists acc_i acc_t : nat,
    acc_i = length (filter (fun i => Nat.eqb (argmax1 (row identity_4x4 i)) i) (seq 0 4)) /\
    acc_t = length (filter (fun j => Nat.eqb (argmax1 (column identity_4x4 j)) j) (seq 0 4)) /\
    compute_accuracy identity_4x4 4
    = xdiv (xdiv (Fin (INR (acc_i + acc_t))) (Fin 2)) (Fin (IZR 4)).
Proof.
  apply (proj1 compute_accuracy_spec 4%nat identity_4x4 4%Z);
    [lia | simpl; repeat constructor].
Defined.

(** ** The Sinkhorn loop against its entry-wise description *)

Section MatrixEntries.

Import SinkhornSpec.

Variables M N : nat.

Lemma matrix_shape (f : nat -> nat -> xr) : has_shape [M; N] 2 (matrix M N f).
Proof.
  apply has_shape_rows. unfold matrix. rewrite length_map, length_seq.
  split; [reflexivity |]. apply Forall_map, Forall_forall. intros i _.
  now rewrite length_map, length_seq.
Qed.

Lemma nth_map_seq {A : Type} (d : A) (g : nat -> A) (n i : nat) :
  (i < n)%nat -> nth i (map g (seq 0 n)) d = g i.
Proof.
  intros Hi. rewrite (nth_indep _ d (g 0%nat)) by (rewrite length_map, length_seq; lia).
  rewrite (map_nth g). now rewrite seq_nth.
Qed.

Lemma matrix_entry (f : nat -> nat -> xr) (i j : nat) :
  (i < M)%nat -> (j < N)%nat -> entry (matrix M N f) i j = f i j.
Proof.
  intros Hi Hj. unfold entry, matrix.
  rewrite (nth_map_seq [] _ M i Hi). apply nth_map_seq. assumption.
Qed.

(** A matrix is determined by its shape and its entries. *)
Lemma matrix_ext (q : tensor 2) (f : nat -> nat -> xr) :
  has_shape [M; N] 2 q ->
  (forall i j, (i < M)%nat -> (j < N)%nat -> entry q i j = f i j) ->
  q = matrix M N f.
Proof.
  intros Hs He. pose proof Hs as Hs'. apply has_shape_rows in Hs'.
  destruct Hs' as [Hl Hr]. unfold matrix.
  rewrite <- (map_nth_seq [] q) at 1. rewrite Hl.
  apply map_ext_in. intros i Hi. apply in_seq in Hi.
  rewrite <- (map_nth_seq (Fin 0) (nth i q [])) at 1.
  rewrite (nth_row_length M N q i Hs) by lia.
  apply map_ext_in. intros j Hj. apply in_seq in Hj. apply He; lia.
Qed.

Lemma entry_map_rows (g : list xr -> list xr) (h : list xr -> xr -> xr)
  (q : tensor 2) (i j : nat) :
  (forall r, g r = map (h r) r) ->
  has_shape [M; N] 2 q -> (i < M)%nat -> (j < N)%nat ->
  entry (map g q) i j = h (nth i q []) (entry q i j).
Proof.
  intros Hg Hs Hi Hj. unfold entry.
  assert (Hl : length q = M) by (apply has_shape_rows in Hs; tauto).
  rewrite (nth_indep _ [] (g [])) by (rewrite length_map; lia).
  rewrite (map_nth g), Hg.
  rewrite (nth_indep _ (Fin 0) (h (nth i q []) (Fin 0)))
    by (rewrite length_map, (nth_row_length M N q i Hs Hi); lia).
  now rewrite (map_nth (h (nth i q []))).
Qed.

Lemma has_shape_map_rows (g : list xr -> list xr) (q : tensor 2) :
  (forall r, length (g r) = length r) ->
  has_shape [M; N] 2 q -> has_shape [M; N] 2 (map g q).
Proof.
  intros Hg Hs. apply has_shape_rows in Hs. destruct Hs as [Hl Hr].
  apply has_shape_rows. rewrite length_map. split; [assumption |].
  apply Forall_map. eapply Forall_impl; [| exact Hr].
  intros r Hrl. simpl. now rewrite Hg.
Qed.

End MatrixEntries.

Section MatrixOperations.

Import SinkhornSpec.

Lemma tbin_vector (f : xr -> xr -> xr) (a b : list xr) :
  length a = length b -> tbin f 1 a b = zip_with f a b.
Proof.
  intros H. destruct b as [|y [|y2 r]]; [reflexivity | | reflexivity].
  destruct a as [|x [|x2 a]]; simpl in H; try discriminate. reflexivity.
Qed.

Lemma nth_zip_with (f : xr -> xr -> xr) (a b : list xr) (i : nat) :
  length a = length b -> (i < length a)%nat ->
  nth i (zip_with f a b) (Fin 0) = f (nth i a (Fin 0)) (nth i b (Fin 0)).
Proof.
  revert b i; induction a as [|x a IH]; intros [|y b] i Hl Hi; simpl in *;
    try lia; try discriminate.
  destruct i as [|i]; [reflexivity |]. apply IH; lia.
Qed.

Variables M N : nat.
Hypothesis M_pos : (0 < M)%nat.

Variable q : tensor 2.
Hypothesis q_shape : has_shape [M; N] 2 q.

Lemma q_length : length q = M.
Proof. apply has_shape_rows in q_shape. tauto. Qed.

Lemma q_rows : Forall (fun r => length r = N) q.
Proof. apply has_shape_rows in q_shape. tauto. Qed.

Lemma tmap_entries (f : xr -> xr) :
  has_shape [M; N] 2 (tmap f 2 q) /\
  forall i j, (i < M)%nat -> (j < N)%nat ->
    entry (tmap f 2 q) i j = f (entry q i j).
Proof.
  split; [apply has_shape_tmap; exact q_shape |]. intros i j Hi Hj.
  change (tmap f 2 q) with (map (map f) q).
  apply (entry_map_rows M N (map f) (fun _ => f)); auto.
Qed.

Lemma row_division_entries :
  has_shape [M; N] 2 (tbin xdiv 2 q (tsum 2 1 q)) /\
  forall i j, (i < M)%nat -> (j < N)%nat ->
    entry (tbin xdiv 2 q (tsum 2 1 q)) i j = xdiv (entry q i j) (row_sum q i).
Proof.
  pose proof (row_normalize_rows q) as E. unfold row_normalize in E.
  rewrite axis_1 in E. rewrite E. split.
  - apply has_shape_map_rows; [| exact q_shape]. intros r. apply length_map.
  - intros i j Hi Hj.
    apply (entry_map_rows M N _ (fun r x => xdiv x (xsum r))); auto.
Qed.

(** The column sums, as the left-to-right accumulation of the rows. *)
Lemma fold_rows_nth (rest : list (list xr)) :
  forall acc, length acc = N -> Forall (fun r => length r = N) rest ->
    length (fold_left (tbin xadd 1) rest acc) = N /\
    forall j, (j < N)%nat ->
      nth j (fold_left (tbin xadd 1) rest acc) (Fin 0)
      = fold_left xadd (map (fun r => nth j r (Fin 0)) rest) (nth j acc (Fin 0)).
Proof.
  induction rest as [|r rest IH]; intros acc Ha Hr; cbn [fold_left map].
  - split; [assumption | reflexivity].
  - pose proof (Forall_inv Hr) as Hr0. pose proof (Forall_inv_tail Hr) as Hr'.
    simpl in Hr0.
    assert (El : length acc = length r) by congruence.
    rewrite (tbin_vector xadd acc r El).
    assert (Hz : length (zip_with xadd acc r) = N)
      by (rewrite length_zip_with; congruence).
    destruct (IH (zip_with xadd acc r) Hz Hr') as [L1 L2].
    split; [assumption |]. intros j Hj. rewrite (L2 j Hj).
    rewrite nth_zip_with by lia. reflexivity.
Qed.

Lemma column_sums :
  length (tadd_all 1 q) = N /\
  forall j, (j < N)%nat -> nth j (tadd_all 1 q) (Fin 0) = col_sum q j.
Proof.
  pose proof q_length as Hl. pose proof q_rows as Hr.
  destruct q as [|r0 rest]; simpl in Hl; [lia |].
  pose proof (Forall_inv Hr) as Hr0. pose proof (Forall_inv_tail Hr) as Hr'.
  simpl in Hr0.
  destruct (fold_rows_nth rest r0 Hr0 Hr') as [L1 L2].
  split; [exact L1 |]. intros j Hj. unfold col_sum, xsum. simpl. apply L2, Hj.
Qed.

Lemma col_division_entries :
  has_shape [M; N] 2 (tbin xdiv 2 q (tsum 2 0 q)) /\
  forall i j, (i < M)%nat -> (j < N)%nat ->
    entry (tbin xdiv 2 q (tsum 2 0 q)) i j = xdiv (entry q i j) (col_sum q j).
Proof.
  destruct column_sums as [L1 L2].
  assert (E : tbin xdiv 2 q (tsum 2 0 q)
              = map (fun r : list xr => zip_with xdiv r (tadd_all 1 q)) q).
  { change (tbin xdiv 2 q (tsum 2 0 q))
      with (map (fun r : list xr => tbin xdiv 1 r (tadd_all 1 q)) q).
    apply map_ext_in. intros r Hin. apply tbin_vector. pose proof q_rows as Hr.
    rewrite Forall_forall in Hr. rewrite (Hr r Hin). now rewrite L1. }
  rewrite E. split.
  - apply has_shape_rows. rewrite length_map. split; [apply q_length |].
    apply Forall_map, Forall_forall. intros r Hin. pose proof q_rows as Hr.
    rewrite Forall_forall in Hr. rewrite length_zip_with; rewrite (Hr r Hin); auto.
  - intros i j Hi Hj. unfold entry.
    rewrite (nth_indep _ [] (zip_with xdiv [] (tadd_all 1 q)))
      by (rewrite length_map, q_length; lia).
    rewrite (map_nth (fun r => zip_with xdiv r (tadd_all 1 q))).
    pose proof (nth_row_length M N q i q_shape Hi) as Hli.
    rewrite nth_zip_with by (rewrite ?Hli, ?L1; auto).
    now rewrite L2.
Qed.

Lemma total_sum_fold (rest : list (list xr)) :
  forall acc : xr,
    fold_left (tbin xadd 1) (map (fun r => [xsum r]) rest) [acc]
    = [fold_left xadd (map xsum rest) acc].
Proof.
  induction rest as [|r rest IH]; intros acc; simpl; [reflexivity |]. apply IH.
Qed.

Lemma total_division_entries :
  has_shape [M; N] 2 (tbin xdiv 2 q (tsum 2 0 (tsum 2 1 q))) /\
  forall i j, (i < M)%nat -> (j < N)%nat ->
    entry (tbin xdiv 2 q (tsum 2 0 (tsum 2 1 q))) i j
    = xdiv (entry q i j) (total_sum q).
Proof.
  assert (E : tsum 2 0 (tsum 2 1 q) = [[total_sum q]]).
  { pose proof q_length as Hl. destruct q as [|r0 rest]; simpl in Hl; [lia |].
    change (tsum 2 1 (r0 :: rest)) with (map (fun r => [xsum r]) (r0 :: rest)).
    unfold total_sum, xsum at 1. simpl. f_equal. apply total_sum_fold. }
  rewrite E.
  change (tbin xdiv 2 q [[total_sum q]])
    with (map (fun r => map (fun x => xdiv x (total_sum q)) r) q).
  split.
  - apply has_shape_map_rows; [| exact q_shape]. intros r. apply length_map.
  - intros i j Hi Hj.
    apply (entry_map_rows M N _ (fun _ x => xdiv x (total_sum q))); auto.
Qed.

Lemma scale_uniform_entries (p : xr) :
  has_shape [M; N] 2 (scale 2 q (Uniform p)) /\
  forall i j, (i < M)%nat -> (j < N)%nat ->
    entry (scale 2 q (Uniform p)) i j = xmul (entry q i j) p.
Proof. apply (tmap_entries (fun e => xmul e p)). Qed.

Lemma scale_rows_entries (v : list xr) :
  length v = M ->
  has_shape [M; N] 2 (scale 2 q (Given (unsqueeze 1 1 v))) /\
  forall i j, (i < M)%nat -> (j < N)%nat ->
    entry (scale 2 q (Given (unsqueeze 1 1 v))) i j
    = xmul (entry q i j) (nth i v (Fin 0)).
Proof.
  intros Hv.
  assert (E : scale 2 q (Given (unsqueeze 1 1 v))
              = zip_with (fun r x => map (fun e => xmul e x) r) q v).
  { unfold scale. change (unsqueeze 1 1 v) with (map (fun x : xr => [x]) v).
    pose proof q_length as Hl. rewrite <- Hv in Hl. clear Hv.
    revert Hl. clear. revert v.
    assert (G : forall (a : list (list xr)) (v : list xr), length a = length v ->
              zip_with (tbin xmul 1) a (map (fun x : xr => [x]) v)
              = zip_with (fun r x => map (fun e => xmul e x) r) a v).
    { induction a as [|r a IH]; intros [|x v] H; simpl in *; try discriminate;
        [reflexivity |]. f_equal. apply IH. lia. }
    intros v Hl. destruct v as [|x [|x2 v]].
    - destruct q; [reflexivity | discriminate].
    - destruct q as [|r [|r2 a]]; try discriminate. reflexivity.
    - apply (G q (x :: x2 :: v) Hl). }
  rewrite E. pose proof q_length as Hl. pose proof q_rows as Hr. split.
  - apply has_shape_rows. split.
    + rewrite length_zip_with; [exact Hl | congruence].
    + apply (Forall_zip_with _ (fun r => length r = N) (fun _ => True)
               (fun r => length r = N));
        [intros r x Hr0 _; now rewrite length_map | exact Hr
         | apply Forall_forall; auto].
  - intros i j Hi Hj. unfold entry. clear E.
    assert (G : forall (a : list (list xr)) (w : list xr) i,
              length a = length w -> (i < length a)%nat ->
              nth i (zip_with (fun r x => map (fun e => xmul e x) r) a w) []
              = map (fun e => xmul e (nth i w (Fin 0))) (nth i a [])).
    { induction a as [|r a IH]; intros [|x w] i0 H H0; simpl in *;
        try lia; try discriminate.
      destruct i0 as [|i0]; [reflexivity |]. apply IH; lia. }
    rewrite G by lia.
    rewrite (nth_indep _ (Fin 0) (xmul (Fin 0) (nth i v (Fin 0))))
      by (rewrite length_map, (nth_row_length M N q i q_shape Hi); lia).
    now rewrite (map_nth (fun e => xmul e (nth i v (Fin 0)))).
Qed.

Lemma scale_cols_entries (v : list xr) :
  length v = N ->
  has_shape [M; N] 2 (scale 2 q (Given (unsqueeze 1 0 v))) /\
  forall i j, (i < M)%nat -> (j < N)%nat ->
    entry (scale 2 q (Given (unsqueeze 1 0 v))) i j
    = xmul (entry q i j) (nth j v (Fin 0)).
Proof.
  intros Hv.
  assert (E : scale 2 q (Given (unsqueeze 1 0 v))
              = map (fun r : list xr => zip_with xmul r v) q).
  { change (scale 2 q (Given (unsqueeze 1 0 v)))
      with (map (fun r : list xr => tbin xmul 1 r v) q).
    apply map_ext_in. intros r Hin. apply tbin_vector. pose proof q_rows as Hr.
    rewrite Forall_forall in Hr. rewrite (Hr r Hin). now rewrite Hv. }
  rewrite E. split.
  - apply has_shape_rows. rewrite length_map. split; [apply q_length |].
    apply Forall_map, Forall_forall. intros r Hin. pose proof q_rows as Hr.
    rewrite Forall_forall in Hr. rewrite length_zip_with; rewrite (Hr r Hin); auto.
  - intros i j Hi Hj. unfold entry.
    rewrite (nth_indep _ [] (zip_with xmul [] v))
      by (rewrite length_map, q_length; lia).
    rewrite (map_nth (fun r => zip_with xmul r v)).
    pose proof (nth_row_length M N q i q_shape Hi) as Hli.
    rewrite nth_zip_with by (rewrite ?Hli, ?Hv; auto). reflexivity.
Qed.

End MatrixOperations.

Section SinkhornRefinement.

Import SinkhornSpec.

Variables M N : nat.
Hypothesis M_pos : (0 < M)%nat.
Hypothesis N_pos : (0 < N)%nat.

Lemma normalize_prob_vector (v : list xr) :
  normalize_prob 0 v = map (fun x => xdiv x (xsum v)) v.
Proof. unfold normalize_prob. rewrite axis_m1. reflexivity. Qed.

Lemma nth_normalize_prob (v : list xr) (i : nat) :
  (i < length v)%nat ->
  nth i (normalize_prob 0 v) (Fin 0) = xdiv (nth i v (Fin 0)) (xsum v).
Proof.
  intros Hi. rewrite normalize_prob_vector.
  rewrite (nth_indep _ (Fin 0) (xdiv (Fin 0) (xsum v))) by (rewrite length_map; lia).
  now rewrite (map_nth (fun x => xdiv x (xsum v))).
Qed.

(** What the loop holds for a marginal, once the checks have passed. *)
Definition row_target (r_prob : option (list xr)) : marginal 2 :=
  match r_prob with
  | Some v => Given (unsqueeze 1 1 (normalize_prob 0 v))
  | None => Uniform (Fin (1 / INR M))
  end.

Definition col_target (c_prob : option (list xr)) : marginal 2 :=
  match c_prob with
  | Some v => Given (unsqueeze 1 0 (normalize_prob 0 v))
  | None => Uniform (Fin (1 / INR N))
  end.

Definition fits (size : nat) (p : option (list xr)) : Prop :=
  forall v, p = Some v -> length v = size.

Lemma scale_row_target (r_prob : option (list xr)) (q : tensor 2) :
  fits M r_prob -> has_shape [M; N] 2 q ->
  has_shape [M; N] 2 (scale 2 q (row_target r_prob)) /\
  forall i j, (i < M)%nat -> (j < N)%nat ->
    entry (scale 2 q (row_target r_prob)) i j
    = xmul (entry q i j) (target r_prob M i).
Proof.
  intros Hr Hq. destruct r_prob as [v|]; unfold row_target, target.
  - assert (Hv : length v = M) by (apply Hr; reflexivity).
    assert (Hn : length (normalize_prob 0 v) = M)
      by (now rewrite normalize_prob_vector, length_map).
    destruct (scale_rows_entries M N M_pos q Hq (normalize_prob 0 v) Hn) as [S1 S2].
    split; [exact S1 |]. intros i j Hi Hj.
    rewrite (S2 i j Hi Hj), nth_normalize_prob by lia. reflexivity.
  - apply scale_uniform_entries. assumption.
Qed.

Lemma scale_col_target (c_prob : option (list xr)) (q : tensor 2) :
  fits N c_prob -> has_shape [M; N] 2 q ->
  has_shape [M; N] 2 (scale 2 q (col_target c_prob)) /\
  forall i j, (i < M)%nat -> (j < N)%nat ->
    entry (scale 2 q (col_target c_prob)) i j
    = xmul (entry q i j) (target c_prob N j).
Proof.
  intros Hc Hq. destruct c_prob as [v|]; unfold col_target, target.
  - assert (Hv : length v = N) by (apply Hc; reflexivity).
    assert (Hn : length (normalize_prob 0 v) = N)
      by (now rewrite normalize_prob_vector, length_map).
    destruct (scale_cols_entries M N M_pos q Hq (normalize_prob 0 v) Hn) as [S1 S2].
    split; [exact S1 |]. intros i j Hi Hj.
    rewrite (S2 i j Hi Hj), nth_normalize_prob by lia. reflexivity.
  - apply scale_uniform_entries. assumption.
Qed.

Lemma sinkhorn_init_q0 (cost_mat : tensor 2) (eps : xr) :
  has_shape [M; N] 2 cost_mat -> sinkhorn_init 0 cost_mat eps = q0 M N cost_mat eps.
Proof.
  intros Hs. unfold sinkhorn_init, q0. rewrite axis_m1, axis_m2.
  set (f := fun c => xexp (xdiv (xneg c) eps)).
  destruct (tmap_entries M N cost_mat Hs f) as [G1 G2].
  assert (Eg : tmap f 2 cost_mat = matrix M N (fun i j => f (entry cost_mat i j)))
    by (apply matrix_ext; assumption).
  rewrite Eg.
  set (g := matrix M N (fun i j => f (entry cost_mat i j))).
  destruct (total_division_entries M N M_pos g (matrix_shape M N _)) as [T1 T2].
  apply matrix_ext; assumption.
Qed.

Lemma sinkhorn_step_spec (r_prob c_prob : option (list xr)) (q : tensor 2) :
  fits M r_prob -> fits N c_prob -> has_shape [M; N] 2 q ->
  sinkhorn_step 0 (row_target r_prob) (col_target c_prob) q
  = col_step M N c_prob (row_step M N r_prob q).
Proof.
  intros Hr Hc Hq. unfold sinkhorn_step. rewrite axis_m1, axis_m2.
  destruct (row_division_entries M N q Hq) as [A1 A2].
  destruct (scale_row_target r_prob _ Hr A1) as [B1 B2].
  assert (E1 : scale 2 (tbin xdiv 2 q (tsum 2 1 q)) (row_target r_prob)
               = row_step M N r_prob q).
  { apply matrix_ext; [exact B1 |]. intros i j Hi Hj.
    rewrite (B2 i j Hi Hj), (A2 i j Hi Hj). reflexivity. }
  rewrite E1. set (q1 := row_step M N r_prob q).
  assert (Hq1 : has_shape [M; N] 2 q1) by apply matrix_shape.
  destruct (col_division_entries M N M_pos q1 Hq1) as [C1 C2].
  destruct (scale_col_target c_prob _ Hc C1) as [D1 D2].
  apply matrix_ext; [exact D1 |]. intros i j Hi Hj.
  rewrite (D2 i j Hi Hj), (C2 i j Hi Hj). reflexivity.
Qed.

Lemma iterate_shape (cost_mat : tensor 2) (eps : xr) (n : nat)
  (r_prob c_prob : option (list xr)) :
  has_shape [M; N] 2
    (Nat.iter n (fun q => col_step M N c_prob (row_step M N r_prob q))
       (q0 M N cost_mat eps)).
Proof. destruct n; simpl; apply matrix_shape. Qed.

Lemma sinkhorn_loop_spec (cost_mat : tensor 2) (eps : xr) (n : nat)
  (r_prob c_prob : option (list xr)) :
  fits M r_prob -> fits N c_prob ->
  Nat.iter n (sinkhorn_step 0 (row_target r_prob) (col_target c_prob))
    (q0 M N cost_mat eps)
  = Nat.iter n (fun q => col_step M N c_prob (row_step M N r_prob q))
      (q0 M N cost_mat eps).
Proof.
  intros Hr Hc. induction n as [|n IH]; [reflexivity |].
  rewrite !Nat.iter_succ, IH. apply sinkhorn_step_spec; auto. apply iterate_shape.
Qed.

(** On a matrix, with marginals of the matching lengths that pass the
    checks, the loop of [sinkhorn] leaves the matrix the entry-wise
    description gives. *)
Lemma sinkhorn_iterate_matrix (cost_mat : tensor 2) (eps : xr) (niter : Z)
  (r_prob c_prob : option (list xr)) :
  has_shape [M; N] 2 cost_mat ->
  fits M r_prob -> fits N c_prob ->
  (forall v, r_prob = Some v -> _has_nan_or_inf 1 (normalize_prob 0 v) = false) ->
  (forall v, c_prob = Some v -> _has_nan_or_inf 1 (normalize_prob 0 v) = false) ->
  sinkhorn_iterate 0 cost_mat eps niter r_prob c_prob
  = Ok (iterate M N cost_mat eps niter r_prob c_prob).
Proof.
  intros Hs Hr Hc Cr Cc. unfold sinkhorn_iterate, iterate.
  rewrite (sinkhorn_init_q0 cost_mat eps Hs).
  assert (Hp : positive_dims [M; N]) by (repeat constructor; assumption).
  assert (Hq0 : has_shape [M; N] 2 (q0 M N cost_mat eps)) by apply matrix_shape.
  rewrite !(dim_size_shape 2 _ [M; N] _ Hq0 Hp).
  rewrite axis_m1, axis_m2. simpl nth.
  assert (Er : row_marginal 0 M r_prob = Ok (row_target r_prob)).
  { destruct r_prob as [v|]; unfold row_marginal, row_target.
    - rewrite has_nan_or_inf_unsqueeze, (Cr v eq_refl). reflexivity.
    - destruct M; [lia | reflexivity]. }
  assert (Ec : col_marginal 0 N c_prob = Ok (col_target c_prob)).
  { destruct c_prob as [v|]; unfold col_marginal, col_target.
    - rewrite has_nan_or_inf_unsqueeze, (Cc v eq_refl). reflexivity.
    - destruct N; [lia | reflexivity]. }
  rewrite Er, Ec. simpl bind. apply f_equal. apply sinkhorn_loop_spec; assumption.
Qed.

End SinkhornRefinement.

(** ** Leading batch dimensions

    On a batched input every operation of the loop works on the last two
    axes, so the loop treats the matrices of the batch one by one. *)

Section ListIndexing.

Context {A B C : Type}.

Lemma map_as_seq (h : A -> B) (l : list A) (d : A) :
  map h l = map (fun b => h (nth b l d)) (seq 0 (length l)).
Proof.
  rewrite <- (map_map (fun b => nth b l d) h), map_nth_seq. reflexivity.
Qed.

Lemma nth_map_lt (f : A -> B) (l : list A) (i : nat) (d : A) (d' : B) :
  (i < length l)%nat -> nth i (map f l) d' = f (nth i l d).
Proof.
  intros Hi. rewrite (nth_indep _ d' (f d)) by (rewrite length_map; lia).
  apply map_nth.
Qed.

Lemma zip_with_as_seq (f : A -> B -> C) (a : list A) (b : list B) (da : A) (db : B) :
  length a = length b ->
  zip_with f a b = map (fun i => f (nth i a da) (nth i b db)) (seq 0 (length a)).
Proof.
  revert b; induction a as [|x a IH]; intros [|y b] H; simpl in *;
    try discriminate; [reflexivity |].
  f_equal. rewrite <- seq_shift, map_map. apply IH. lia.
Qed.

End ListIndexing.

Lemma tbin_same_length (f : xr -> xr -> xr) (n : nat) (a b : tensor (S n)) :
  length a = length b -> tbin f (S n) a b = zip_with (tbin f n) a b.
Proof.
  intros H. destruct b as [|y [|y2 r]]; [reflexivity | | reflexivity].
  destruct a as [|x [|x2 a]]; simpl in H; try discriminate. reflexivity.
Qed.

Section Batches.

(** The marginals the loop holds, for a cost tensor whose last two
    dimensions are [M] and [N]. *)
Definition prepared_rows (k M : nat) (r_prob : option (tensor (S k)))
  : marginal (S (S k)) :=
  match r_prob with
  | Some r => Given (unsqueeze (S k) (S k) (normalize_prob k r))
  | None => Uniform (Fin (1 / INR M))
  end.

Definition prepared_cols (k N : nat) (c_prob : option (tensor (S k)))
  : marginal (S (S k)) :=
  match c_prob with
  | Some c => Given (unsqueeze (S k) k (normalize_prob k c))
  | None => Uniform (Fin (1 / INR N))
  end.

Definition sinkhorn_loop (k M N : nat) (cost_mat : tensor (S (S k))) (eps : xr)
  (niter : Z) (r_prob c_prob : option (tensor (S k))) : tensor (S (S k)) :=
  Nat.iter (Z.to_nat niter)
    (sinkhorn_step k (prepared_rows k M r_prob) (prepared_cols k N c_prob))
    (sinkhorn_init k cost_mat eps).

(** Slice [b] of a marginal and of an optional tensor along the batch axis. *)
Definition marginal_slice (n : nat) (p : marginal (S n)) (b : nat) : marginal n :=
  match p with
  | Uniform x => Uniform x
  | Given t => Given (nth b t (tzero n))
  end.

Definition option_slice (n : nat) (p : option (tensor (S n))) (b : nat)
  : option (tensor n) :=
  option_map (fun t => nth b t (tzero n)) p.

Definition marginal_fits (n L : nat) (p : marginal (S n)) : Prop :=
  match p with
  | Uniform _ => True
  | Given t => length t = L
  end.

Lemma sinkhorn_init_batch (k : nat) (cost_mat : tensor (S (S (S k)))) (eps : xr) :
  sinkhorn_init (S k) cost_mat eps = map (fun cb => sinkhorn_init k cb eps) cost_mat.
Proof.
  unfold sinkhorn_init. rewrite !axis_m1, !axis_m2.
  set (g := fun c => xexp (xdiv (xneg c) eps)).
  change (tmap g (S (S (S k))) cost_mat) with (map (tmap g (S (S k))) cost_mat).
  set (q := map (tmap g (S (S k))) cost_mat).
  change (tsum (S (S (S k))) (S k) (tsum (S (S (S k))) (S (S k)) q))
    with (map (tsum (S (S k)) k) (map (tsum (S (S k)) (S k)) q)).
  rewrite map_map, tbin_map_r. unfold q. rewrite map_map. reflexivity.
Qed.

Lemma normalize_prob_batch (k : nat) (p : tensor (S (S k))) :
  normalize_prob (S k) p = map (normalize_prob k) p.
Proof.
  unfold normalize_prob. rewrite !axis_m1.
  change (tsum (S (S k)) (S k) p) with (map (tsum (S k) k) p).
  apply tbin_map_r.
Qed.

Lemma scale_batch (n L : nat) (q : tensor (S n)) (p : marginal (S n)) :
  length q = L -> marginal_fits n L p ->
  scale (S n) q p
  = map (fun b => scale n (nth b q (tzero n)) (marginal_slice n p b)) (seq 0 L).
Proof.
  intros Hq Hp. destruct p as [x | t]; unfold scale, marginal_slice.
  - change (tmap (fun e => xmul e x) (S n) q)
      with (map (tmap (fun e => xmul e x) n) q).
    rewrite <- Hq. apply map_as_seq.
  - simpl in Hp.
    assert (Hl : length q = length t)
      by (transitivity L; [exact Hq | symmetry; exact Hp]).
    rewrite (tbin_same_length xmul n q t Hl).
    rewrite <- Hq. apply zip_with_as_seq. exact Hl.
Qed.

Lemma sinkhorn_step_batch (k L : nat) (r c : marginal (S (S (S k))))
  (q : tensor (S (S (S k)))) :
  length q = L -> marginal_fits (S (S k)) L r -> marginal_fits (S (S k)) L c ->
  sinkhorn_step (S k) r c q
  = map (fun b => sinkhorn_step k (marginal_slice (S (S k)) r b) (marginal_slice (S (S k)) c b)
                    (nth b q (tzero (S (S k)))))
        (seq 0 L).
Proof.
  intros Hq Hr Hc. unfold sinkhorn_step. rewrite !axis_m1, !axis_m2.
  change (tsum (S (S (S k))) (S (S k)) q) with (map (tsum (S (S k)) (S k)) q).
  rewrite tbin_map_r.
  set (rowdiv := fun x => tbin xdiv (S (S k)) x (tsum (S (S k)) (S k) x)).
  rewrite (scale_batch (S (S k)) L (map rowdiv q) r) by (rewrite ?length_map; assumption).
  set (q2 := map _ (seq 0 L)).
  change (tsum (S (S (S k))) (S k) q2) with (map (tsum (S (S k)) k) q2).
  rewrite tbin_map_r.
  set (coldiv := fun x => tbin xdiv (S (S k)) x (tsum (S (S k)) k x)).
  rewrite (scale_batch (S (S k)) L (map coldiv q2) c)
    by (unfold q2; rewrite ?length_map, ?length_seq; auto).
  apply map_ext_in. intros b Hb. apply in_seq in Hb.
  assert (Hbq : (b < length q)%nat) by (rewrite Hq; lia).
  rewrite (nth_map_lt coldiv q2 b (tzero (S (S k))))
    by (unfold q2; rewrite length_map, length_seq; lia).
  unfold q2. rewrite nth_map_seq by lia.
  rewrite (nth_map_lt rowdiv q b (tzero (S (S k))) _ Hbq). reflexivity.
Qed.

Lemma sinkhorn_steps_batch (k L : nat) (r c : marginal (S (S (S k))))
  (f : nat -> tensor (S (S k))) (n : nat) :
  marginal_fits (S (S k)) L r -> marginal_fits (S (S k)) L c ->
  Nat.iter n (sinkhorn_step (S k) r c) (map f (seq 0 L))
  = map (fun b => Nat.iter n (sinkhorn_step k (marginal_slice (S (S k)) r b)
                                (marginal_slice (S (S k)) c b)) (f b))
        (seq 0 L).
Proof.
  intros Hr Hc. induction n as [|n IH]; [reflexivity |].
  rewrite Nat.iter_succ, IH.
  rewrite (sinkhorn_step_batch k L r c) by (rewrite ?length_map, ?length_seq; auto).
  apply map_ext_in. intros b Hb. apply in_seq in Hb.
  rewrite nth_map_seq by lia. rewrite Nat.iter_succ. reflexivity.
Qed.

Lemma prepared_rows_slice (k M : nat) (r_prob : option (tensor (S (S k)))) (b : nat) :
  (forall t, r_prob = Some t -> (b < length t)%nat) ->
  marginal_slice (S (S k)) (prepared_rows (S k) M r_prob) b
  = prepared_rows k M (option_slice (S k) r_prob b).
Proof.
  intros Hb. destruct r_prob as [t|]; [| reflexivity].
  specialize (Hb t eq_refl). unfold prepared_rows, option_slice, marginal_slice.
  simpl option_map. rewrite normalize_prob_batch.
  change (unsqueeze (S (S k)) (S (S k)) (map (normalize_prob k) t))
    with (map (unsqueeze (S k) (S k)) (map (normalize_prob k) t)).
  rewrite map_map.
  rewrite (nth_map_lt _ t b (tzero (S k))) by assumption. reflexivity.
Qed.

Lemma prepared_cols_slice (k N : nat) (c_prob : option (tensor (S (S k)))) (b : nat) :
  (forall t, c_prob = Some t -> (b < length t)%nat) ->
  marginal_slice (S (S k)) (prepared_cols (S k) N c_prob) b
  = prepared_cols k N (option_slice (S k) c_prob b).
Proof.
  intros Hb. destruct c_prob as [t|]; [| reflexivity].
  specialize (Hb t eq_refl). unfold prepared_cols, option_slice, marginal_slice.
  simpl option_map. rewrite normalize_prob_batch.
  change (unsqueeze (S (S k)) (S k) (map (normalize_prob k) t))
    with (map (unsqueeze (S k) k) (map (normalize_prob k) t)).
  rewrite map_map.
  rewrite (nth_map_lt _ t b (tzero (S k))) by assumption. reflexivity.
Qed.

(** The loop on a batch is the loop on each matrix of the batch. *)
Lemma sinkhorn_loop_batch (k M N : nat) (cost_mat : tensor (S (S (S k)))) (eps : xr)
  (niter : Z) (r_prob c_prob : option (tensor (S (S k)))) :
  (forall t, r_prob = Some t -> length t = length cost_mat) ->
  (forall t, c_prob = Some t -> length t = length cost_mat) ->
  sinkhorn_loop (S k) M N cost_mat eps niter r_prob c_prob
  = map (fun b => sinkhorn_loop k M N (nth b cost_mat (tzero (S (S k)))) eps niter
                    (option_slice (S k) r_prob b) (option_slice (S k) c_prob b))
        (seq 0 (length cost_mat)).
Proof.
  intros Hr Hc. unfold sinkhorn_loop.
  rewrite sinkhorn_init_batch.
  rewrite (map_as_seq (fun cb => sinkhorn_init k cb eps) cost_mat (tzero (S (S k)))).
  rewrite sinkhorn_steps_batch.
  - apply map_ext_in. intros b Hb. apply in_seq in Hb.
    rewrite prepared_rows_slice, prepared_cols_slice; [reflexivity | |];
      intros t Et; [rewrite (Hc t Et) | rewrite (Hr t Et)]; lia.
  - destruct r_prob as [t|]; simpl; [| exact I].
    rewrite normalize_prob_batch.
    change (unsqueeze (S (S k)) (S (S k)) (map (normalize_prob k) t))
      with (map (unsqueeze (S k) (S k)) (map (normalize_prob k) t)).
    rewrite !length_map. apply Hr. reflexivity.
  - destruct c_prob as [t|]; simpl; [| exact I].
    rewrite normalize_prob_batch.
    change (unsqueeze (S (S k)) (S k) (map (normalize_prob k) t))
      with (map (unsqueeze (S k) k) (map (normalize_prob k) t)).
    rewrite !length_map. apply Hc. reflexivity.
Qed.

End Batches.

Section BatchedRefinement.

Import SinkhornSpec.

Variables M N : nat.
Hypothesis M_pos : (0 < M)%nat.
Hypothesis N_pos : (0 < N)%nat.

(** A supplied marginal has the batch dimensions of the cost tensor and the
    given size along its last axis. *)
Definition marginal_shape (k : nat) (sh : list nat) (size : nat)
  (p : option (tensor (S k))) : Prop :=
  forall t, p = Some t -> has_shape (sh ++ [size]) (S k) t.

Lemma marginal_shape_slice (k d : nat) (sh : list nat) (size b : nat)
  (p : option (tensor (S (S k)))) :
  (b < d)%nat -> marginal_shape (S k) (d :: sh) size p ->
  marginal_shape k sh size (option_slice (S k) p b) /\
  (forall t, p = Some t -> length t = d).
Proof.
  intros Hb Hp. split.
  - intros t Et. destruct p as [t0|]; [| discriminate].
    injection Et as <-. destruct (Hp t0 eq_refl) as [Hl Hf].
    pose proof Hb as Hb'. rewrite <- Hl in Hb'.
    rewrite Forall_forall in Hf. apply Hf, nth_In. exact Hb'.
  - intros t Et. destruct (Hp t Et) as [Hl _]. exact Hl.
Qed.

Lemma sinkhorn_loop_spec_batch :
  forall (k : nat) (sh : list nat) (cost_mat : tensor (S (S k))) (eps : xr)
         (niter : Z) (r_prob c_prob : option (tensor (S k))),
    length sh = k ->
    has_shape (sh ++ [M; N]) (S (S k)) cost_mat ->
    marginal_shape k sh M r_prob -> marginal_shape k sh N c_prob ->
    sinkhorn_loop k M N cost_mat eps niter r_prob c_prob
    = iterate_batch k M N cost_mat eps niter r_prob c_prob.
Proof.
  induction k as [|k IH]; intros sh cost_mat eps niter r_prob c_prob Hsh Hs Hr Hc.
  - destruct sh; [| discriminate]. simpl app in *.
    unfold sinkhorn_loop, iterate_batch, iterate.
    rewrite sinkhorn_init_q0 with (M := M) (N := N) by assumption.
    apply sinkhorn_loop_spec; try assumption.
    + intros v Ev. destruct (Hr v Ev) as [Hl _]. exact Hl.
    + intros v Ev. destruct (Hc v Ev) as [Hl _]. exact Hl.
  - destruct sh as [|d sh]; [discriminate |]. simpl in Hsh.
    destruct Hs as [Hl Hf].
    rewrite sinkhorn_loop_batch.
    + cbn [iterate_batch]. apply map_ext_in. intros b Hb. apply in_seq in Hb.
      assert (Hbd : (b < d)%nat) by (rewrite <- Hl; lia).
      apply (IH sh).
      * lia.
      * rewrite Forall_forall in Hf. apply Hf, nth_In. lia.
      * apply (marginal_shape_slice k d sh M b r_prob Hbd Hr).
      * apply (marginal_shape_slice k d sh N b c_prob Hbd Hc).
    + intros t Et. destruct (Hr t Et) as [Ht _]. rewrite Hl. exact Ht.
    + intros t Et. destruct (Hc t Et) as [Ht _]. rewrite Hl. exact Ht.
Qed.

Lemma sinkhorn_iterate_loop (k : nat) (sh : list nat) (cost_mat : tensor (S (S k)))
  (eps : xr) (niter : Z) (r_prob c_prob : option (tensor (S k))) :
  length sh = k -> positive_dims sh ->
  has_shape (sh ++ [M; N]) (S (S k)) cost_mat ->
  (forall t, r_prob = Some t -> _has_nan_or_inf (S k) (normalize_prob k t) = false) ->
  (forall t, c_prob = Some t -> _has_nan_or_inf (S k) (normalize_prob k t) = false) ->
  sinkhorn_iterate k cost_mat eps niter r_prob c_prob
  = Ok (sinkhorn_loop k M N cost_mat eps niter r_prob c_prob).
Proof.
  intros Hsh Hp Hs Cr Cc. subst k.
  assert (Hp' : positive_dims (sh ++ [M; N])).
  { apply Forall_app. split; [exact Hp | repeat constructor; assumption]. }
  pose proof (sinkhorn_init_shape _ _ cost_mat eps Hp' Hs) as Hq0.
  unfold sinkhorn_iterate, sinkhorn_loop.
  rewrite !(dim_size_shape _ _ _ _ Hq0 Hp'), axis_m1, axis_m2.
  rewrite !app_nth2 by lia.
  replace (length sh - length sh)%nat with 0%nat by lia.
  replace (S (length sh) - length sh)%nat with 1%nat by lia.
  cbn [nth].
  assert (Er : row_marginal _ M r_prob = Ok (prepared_rows _ M r_prob)).
  { destruct r_prob as [t|]; unfold row_marginal, prepared_rows.
    - rewrite has_nan_or_inf_unsqueeze, (Cr t eq_refl), axis_m1. reflexivity.
    - destruct M; [lia | reflexivity]. }
  assert (Ec : col_marginal _ N c_prob = Ok (prepared_cols _ N c_prob)).
  { destruct c_prob as [t|]; unfold col_marginal, prepared_cols.
    - rewrite has_nan_or_inf_unsqueeze, (Cc t eq_refl), axis_m2. reflexivity.
    - destruct N; [lia | reflexivity]. }
  rewrite Er, Ec. reflexivity.
Qed.

End BatchedRefinement.

(** C9: on a cost tensor of shape (..., M, N) with positive dimensions and
    marginals that are absent or of shapes (..., M) and (..., N) and pass the
    checks, the loop of [sinkhorn] leaves, for every matrix of the batch,
    the matrix the specification describes: [exp(-cost / eps)] divided by
    its total sum, then [n_iters] times the row step (each row divided by
    its sum and multiplied by the normalized row marginal, or by 1/M)
    followed by the column step (each column divided by its sum and
    multiplied by the normalized column marginal, or by 1/N). *)
Theorem sinkhorn_iterate_as_specified (k : nat) (sh : list nat) (M N : nat)
  (cost_mat : tensor (S (S k))) (eps : xr) (niter : Z)
  (r_prob c_prob : option (tensor (S k))) :
  length sh = k -> positive_dims sh -> (0 < M)%nat -> (0 < N)%nat ->
  has_shape (sh ++ [M; N]) (S (S k)) cost_mat ->
  (forall t, r_prob = Some t ->
     has_shape (sh ++ [M]) (S k) t /\
     _has_nan_or_inf (S k) (normalize_prob k t) = false) ->
  (forall t, c_prob = Some t ->
     has_shape (sh ++ [N]) (S k) t /\
     _has_nan_or_inf (S k) (normalize_prob k t) = false) ->
  sinkhorn_iterate k cost_mat eps niter r_prob c_prob
  = Ok (SinkhornSpec.iterate_batch k M N cost_mat eps niter r_prob c_prob).
Proof.
  intros Hsh Hp HM HN Hs Hr Hc.
  rewrite (sinkhorn_iterate_loop M N HM HN k sh cost_mat eps niter r_prob c_prob
             Hsh Hp Hs (fun t E => proj2 (Hr t E)) (fun t E => proj2 (Hc t E))).
  f_equal. apply (sinkhorn_loop_spec_batch M N HM HN k sh); auto.
  - intros t E. apply (proj1 (Hr t E)).
  - intros t E. apply (proj1 (Hc t E)).
Qed.

Lemma sinkhorn_iterate_as_specified_witness :
  sinkhorn_iterate 1 [[[Fin 0; Fin 1]; [Fin 2; Fin 3]]] (Fin (5 / 100)) 5
    (Some [[Fin 1; Fin 3]]) None
  = Ok (SinkhornSpec.iterate_batch 1 2 2 [[[Fin 0; Fin 1]; [Fin 2; Fin 3]]]
          (Fin (5 / 100)) 5 (Some [[Fin 1; Fin 3]]) None).
Proof.
  apply (sinkhorn_iterate_as_specified 1 [1%nat] 2 2);
    [reflexivity | repeat constructor | lia | lia | simpl; repeat constructor
     | | intros t E; discriminate E].
  intros t E. injection E as <-. split; [simpl; repeat constructor |].
  rewrite normalize_prob_batch. unfold _has_nan_or_inf.
  cbn [map existsb tany]. rewrite normalize_prob_vector.
  unfold xsum. cbn -[xdiv Rplus Rmult Rdiv Ropp Rinv exp IZR].
  repeat (rewrite xdiv_fin by lra). reflexivity.
Defined.

(** ** The running variance *)

Section RunningVariance.

Import Utils.

Definition Rmean (l : list R) : R := Rsum l / INR (length l).

(** The sample variance, with the divisor [length - 1]. *)
Definition sample_variance (l : list R) : R :=
  Rsum (map (fun a => (a - Rmean l) * (a - Rmean l)) l) / (INR (length l) - 1).

Lemma Rsum_app (l1 l2 : list R) : Rsum (l1 ++ l2) = Rsum l1 + Rsum l2.
Proof. induction l1 as [|a l1 IH]; simpl; [lra |]. rewrite IH. lra. Qed.

Lemma Rsum_sq_dev (c : R) (l : list R) :
  Rsum (map (fun a => (a - c) * (a - c)) l)
  = Rsum (map (fun a => a * a) l) - 2 * c * Rsum l + INR (length l) * (c * c).
Proof.
  induction l as [|a l IH]; [simpl; lra |].
  cbn [map Rsum fold_right length]. fold (Rsum (map (fun a => (a - c) * (a - c)) l)).
  fold (Rsum (map (fun a => a * a) l)). fold (Rsum l).
  rewrite IH, S_INR. lra.
Qed.

Lemma sample_variance_snoc (l : list R) (x : R) :
  (2 <= length l)%nat ->
  sample_variance (l ++ [x])
  = (INR (length l) - 1) / INR (length l) * sample_variance l
    + 1 / (INR (length l) + 1) * ((x - Rmean l) * (x - Rmean l)).
Proof.
  intros Hl. unfold sample_variance, Rmean.
  rewrite !Rsum_sq_dev, map_app, !Rsum_app, length_app, plus_INR.
  simpl length. simpl INR. simpl map. simpl Rsum.
  assert (Hk : 2 <= INR (length l)) by (apply (le_INR 2); exact Hl).
  set (k := INR (length l)) in *. set (S1 := Rsum l). set (S2 := Rsum (map _ l)).
  field. repeat split; lra.
Qed.

Lemma sample_variance_pair (a x : R) :
  sample_variance [a; x] = 1 / 2 * ((x - a) * (x - a)).
Proof. unfold sample_variance, Rmean. simpl. field. Qed.

Lemma sample_variance_single (x : R) : sample_variance [x] = 0.
Proof.
  unfold sample_variance, Rmean. simpl. unfold Rdiv at 1.
  replace ((x - (x + 0) / 1) * (x - (x + 0) / 1) + 0) with 0 by field.
  apply Rmult_0_l.
Qed.

End RunningVariance.


(** X2: [inc_var] raises a division by zero exactly when [n = 0]: for
    [n = 1], where [n - 1] is 0, the early return of line 11 comes first. *)
Theorem inc_var_raises_iff (value prev_var prev_mean : xr) (n : Z) :
  Utils.inc_var value n prev_var prev_mean = Raise ZeroDivisionError <-> n = 0%Z.
Proof.
  unfold Utils.inc_var.
  destruct (Z.eqb_spec n 1) as [E1 | N1]; [| destruct (Z.eqb_spec n 0) as [E0 | N0]].
  - subst n. split; intros H; [discriminate | lia].
  - subst n. split; intros H; reflexivity.
  - split; intros H; [discriminate | contradiction].
Qed.



(** ** Dataset splits *)

Section Splits.

Import QArith Qround Lqa.
Import Utils.

Lemma py_int_nonneg (x : Q) :
  (0 <= x)%Q -> (0 <= py_int x)%Z /\ (inject_Z (py_int x) <= x)%Q.
Proof.
  intros Hx. unfold py_int.
  assert (Hn : (0 <= Qnum x)%Z).
  { unfold Qle in Hx. simpl in Hx. lia. }
  rewrite Z.quot_div_nonneg by lia. split.
  - apply Z.div_pos; lia.
  - destruct x as [a b]. exact (Qfloor_le (a # b)).
Qed.

Lemma scaled_nonneg (n : Z) (p : Q) :
  (0 <= n)%Z -> (0 <= p)%Q -> (0 <= inject_Z n * p / 100)%Q.
Proof.
  intros Hn Hp.
  assert (Hq : (0 <= inject_Z n)%Q) by (unfold Qle; simpl; lia).
  unfold Qdiv. apply Qmult_le_0_compat; [| discriminate].
  apply Qmult_le_0_compat; assumption.
Qed.

(** The truncated share of [n] instances at a percentage between 0 and 100
    lies between 0 and [n]. *)
Lemma share_bounds (n : Z) (p : Q) :
  (0 <= n)%Z -> (0 <= p)%Q -> (p <= 100)%Q ->
  (0 <= py_int (inject_Z n * p / 100) <= n)%Z.
Proof.
  intros Hn Hp Hp'.
  destruct (py_int_nonneg _ (scaled_nonneg n p Hn Hp)) as [H0 H1].
  split; [exact H0 |]. rewrite Zle_Qle.
  assert (Hq : (0 <= inject_Z n)%Q) by (unfold Qle; simpl; lia).
  apply (Qle_trans _ _ _ H1). set (q := inject_Z n) in *.
  apply Qle_shift_div_r; [reflexivity |]. nra.
Qed.

Lemma shares_sum_bound (n : Z) (p1 p2 : Q) :
  (0 <= n)%Z -> (0 <= p1)%Q -> (0 <= p2)%Q -> (p1 + p2 <= 100)%Q ->
  (py_int (inject_Z n * p1 / 100) + py_int (inject_Z n * p2 / 100) <= n)%Z.
Proof.
  intros Hn H1 H2 Hs.
  destruct (py_int_nonneg _ (scaled_nonneg n p1 Hn H1)) as [_ A1].
  destruct (py_int_nonneg _ (scaled_nonneg n p2 Hn H2)) as [_ A2].
  rewrite Zle_Qle, inject_Z_plus.
  assert (Hq : (0 <= inject_Z n)%Q) by (unfold Qle; simpl; lia).
  set (q := inject_Z n) in *.
  apply (Qle_trans _ (q * p1 / 100 + q * p2 / 100)).
  - apply Qplus_le_compat; assumption.
  - setoid_replace (q * p1 / 100 + q * p2 / 100)%Q with (q * (p1 + p2) / 100)%Q
      by field.
    apply Qle_shift_div_r; [reflexivity |]. nra.
Qed.

(** X4: the three splits [get_splits] returns always add up to
    [n_instances]. *)
Theorem get_splits_sum (n_instances : Z) (train_pct val_pct : Q) :
  (fst (fst (get_splits n_instances train_pct val_pct))
   + snd (fst (get_splits n_instances train_pct val_pct))
   + snd (get_splits n_instances train_pct val_pct))%Z = n_instances.
Proof.
  unfold get_splits.
  destruct (Qeq_bool train_pct 0 && Qeq_bool val_pct 0); [simpl; lia |].
  destruct (Qle_bool 100 (train_pct + val_pct)); simpl; lia.
Qed.





End Splits.

(** * Further properties of [models/clip/model_utils.py] *)

(** ** Finite tensors as tensors of reals *)

Section RealMatrices.

(** The matrix of the finite entries [C]. *)
Definition lift (C : list (list R)) : tensor 2 := map (map Fin) C.

Lemma finite_vector (v : list xr) : Forall finite v -> v = map Fin (map to_R v).
Proof.
  induction 1 as [|x v Hx Hv IH]; [reflexivity |].
  destruct x as [a| | |]; simpl in Hx; try contradiction.
  simpl. now rewrite <- IH.
Qed.

Lemma finite_matrix (x : tensor 2) : tall finite 2 x -> x = lift (map (map to_R) x).
Proof.
  simpl. induction 1 as [|v x Hv Hx IH]; [reflexivity |].
  unfold lift in *. simpl. rewrite <- IH, <- finite_vector by assumption. reflexivity.
Qed.

Lemma xsum_reals (l : list R) : xsum (map Fin l) = Fin (Rsum l).
Proof.
  rewrite xsum_fin.
  - rewrite map_map. simpl. now rewrite map_id.
  - apply Forall_map, Forall_forall. intros; exact I.
Qed.

Lemma map_Fin_inj (l1 l2 : list R) : map Fin l1 = map Fin l2 -> l1 = l2.
Proof.
  revert l2; induction l1 as [|a l1 IH]; intros [|b l2] H; simpl in H;
    try discriminate; [reflexivity |].
  injection H as -> H. now rewrite (IH l2 H).
Qed.

Lemma lift_inj (A B : list (list R)) : lift A = lift B -> A = B.
Proof.
  unfold lift. revert B; induction A as [|a A IH]; intros [|b B] H; simpl in H;
    try discriminate; [reflexivity |].
  injection H as H1 H2. now rewrite (map_Fin_inj a b H1), (IH B H2).
Qed.

(** Row normalization of a matrix of reals whose rows have non-zero sums. *)
Lemma row_normalize_lift (P : list (list R)) :
  Forall (fun row => Rsum row <> 0) P ->
  row_normalize (lift P) = lift (map (fun row => map (fun x => x / Rsum row) row) P).
Proof.
  intros H. rewrite row_normalize_rows. unfold lift. rewrite !map_map.
  apply map_ext_in. intros row Hin. rewrite Forall_forall in H.
  rewrite xsum_reals, !map_map. apply map_ext. intros x.
  apply xdiv_fin. apply H. exact Hin.
Qed.

Lemma xdiv_one (x : xr) : finite x -> xdiv x (Fin 1) = x.
Proof.
  destruct x as [a| | |]; simpl; try tauto. intros _.
  destruct (Req_dec_T 1 0); [lra |]. f_equal. field.
Qed.

(** Row normalization leaves a finite matrix whose rows sum to 1 as it is. *)
Lemma row_normalize_fixed (q : tensor 2) :
  tall finite 2 q -> Forall (fun row => xsum row = Fin 1) q -> row_normalize q = q.
Proof.
  intros Hf Hs. rewrite row_normalize_rows. rewrite <- (map_id q) at 2.
  apply map_ext_in. intros row Hin. simpl in Hf. rewrite Forall_forall in Hf, Hs.
  rewrite (Hs row Hin). rewrite <- (map_id row) at 2.
  apply map_ext_in. intros x Hx. apply xdiv_one.
  specialize (Hf row Hin). rewrite Forall_forall in Hf. apply Hf, Hx.
Qed.

End RealMatrices.

(** ** Teacher targets, continued *)

(** Lines 92-102 of [compute_teacher_targets]: the two cost matrices handed
    to [sinkhorn]. *)
Definition teacher_cost_matrices (teacher_images_embs teacher_text_embs : tensor 2)
  (ii_coeff tt_coeff remove_diag : xr) : tensor 2 * tensor 2 :=
  let '(sim_ii, sim_tt, sim_it, sim_ti) :=
    compute_similarities teacher_images_embs teacher_text_embs in
  let diag :=
    tmap (fun e => xmul (xmul e remove_diag) (Fin 100)) 2
         (eye (dim_size 2 0 sim_ii) (dim_size 2 1 sim_ii)) in
  let sim_ii := tmap (fun e => xmul e ii_coeff) 2 (tbin xsub 2 sim_ii diag) in
  let sim_tt := tmap (fun e => xmul e tt_coeff) 2 (tbin xsub 2 sim_tt diag) in
  (tmap xneg 2 (tbin xadd 2 (tbin xadd 2 sim_ii sim_tt) sim_it),
   tmap xneg 2 (tbin xadd 2 (tbin xadd 2 sim_ii sim_tt) sim_ti)).

(** The map [x * 2 - 1] of the sigmoid mode. *)
Definition to_signed (e : xr) : xr := xsub (xmul e (Fin 2)) (Fin 1).

Section TeacherTargetsMore.

Variables (N D : nat).
Hypothesis N_pos : (0 < N)%nat.
Hypothesis D_pos : (0 < D)%nat.

Variables (i_emb t_emb : tensor 2).
Hypothesis i_shape : has_shape [N; D] 2 i_emb.
Hypothesis t_shape : has_shape [N; D] 2 t_emb.
Hypothesis i_finite : tall finite 2 i_emb.
Hypothesis t_finite : tall finite 2 t_emb.

Variables (ii_coeff tt_coeff eps remove_diag : R).
Hypothesis eps_nonzero : eps <> 0.
Variable niter : Z.

Let costs : tensor 2 * tensor 2 :=
  teacher_cost_matrices i_emb t_emb (Fin ii_coeff) (Fin tt_coeff) (Fin remove_diag).

Lemma compute_teacher_targets_costs (sigmoid_target : bool) :
  compute_teacher_targets i_emb t_emb (Fin ii_coeff) (Fin tt_coeff) (Fin eps)
    niter (Fin remove_diag) sigmoid_target
  = (p_i <- sinkhorn 0 (fst costs) (Fin eps) niter None None ;;
     p_t <- sinkhorn 0 (snd costs) (Fin eps) niter None None ;;
     if sigmoid_target
     then Ok (tmap to_signed 2 (row_normalize p_i), tmap to_signed 2 (row_normalize p_t))
     else Ok (row_normalize p_i, row_normalize p_t)).
Proof. reflexivity. Qed.

Lemma teacher_costs_finite :
  square_finite N (fst costs) /\ square_finite N (snd costs).
Proof.
  unfold costs, teacher_cost_matrices.
  rewrite (compute_similarities_gram N N D i_emb t_emb N_pos N_pos D_pos i_shape t_shape).
  pose proof (square_finite_gram N D i_emb i_emb i_shape i_shape i_finite i_finite) as Gii.
  pose proof (square_finite_gram N D t_emb t_emb t_shape t_shape t_finite t_finite) as Gtt.
  pose proof (square_finite_gram N D i_emb t_emb i_shape t_shape i_finite t_finite) as Git.
  pose proof (square_finite_gram N D t_emb i_emb t_shape i_shape t_finite i_finite) as Gti.
  destruct (square_dims N N_pos (gram i_emb i_emb) (proj1 Gii)) as [E0 E1].
  rewrite E0, E1.
  set (diag := tmap _ 2 (eye N N)).
  assert (Hdiag : square_finite N diag).
  { apply square_finite_tmap; [| apply square_finite_eye].
    intros e He. apply xmul_finite; [apply xmul_finite |]; auto; exact I. }
  set (sim_ii := tmap _ 2 (tbin xsub 2 (gram i_emb i_emb) diag)).
  set (sim_tt := tmap _ 2 (tbin xsub 2 (gram t_emb t_emb) diag)).
  assert (Hii : square_finite N sim_ii).
  { apply square_finite_tmap; [intros e He; apply xmul_finite; auto; exact I |].
    apply square_finite_tbin; auto using xsub_finite. }
  assert (Htt : square_finite N sim_tt).
  { apply square_finite_tmap; [intros e He; apply xmul_finite; auto; exact I |].
    apply square_finite_tbin; auto using xsub_finite. }
  cbn [fst snd]. split.
  - apply square_finite_tmap; [apply xneg_finite |].
    repeat apply square_finite_tbin; auto using xadd_finite.
  - apply square_finite_tmap; [apply xneg_finite |].
    repeat apply square_finite_tbin; auto using xadd_finite.
Qed.

(** What [sinkhorn] returns on a finite N x N cost matrix. *)
Lemma sinkhorn_square (cost_mat : tensor 2) :
  square_finite N cost_mat ->
  exists p,
    sinkhorn 0 cost_mat (Fin eps) niter None None = Ok p /\
    has_shape [N; N] 2 p /\ tall positive 2 p /\
    Forall (fun row => xsum row = Fin 1) p.
Proof.
  intros [Hs Hf].
  assert (Hp : positive_dims [N; N]) by (repeat constructor; assumption).
  destruct (sinkhorn_iterate_balanced 0 [N; N] Hp cost_mat eps niter Hs Hf eps_nonzero)
    as (q & Eq & Sq & Pq).
  destruct (row_normalize_positive N N q N_pos Sq Pq) as (A & B & _ & C).
  exists (sinkhorn_final 0 q). unfold sinkhorn. rewrite Eq. simpl bind.
  repeat split; solve [apply A | exact B | exact C].
Qed.

Lemma positive_matrix_finite (p : tensor 2) : tall positive 2 p -> tall finite 2 p.
Proof.
  simpl. intros H. eapply Forall_impl; [| exact H].
  intros row. apply positive_all_finite.
Qed.

End TeacherTargetsMore.

Lemma Rsum_signed (l : list R) :
  Rsum (map (fun a => a * 2 + - (1)) l) = 2 * Rsum l - INR (length l).
Proof.
  induction l as [|a l IH]; [simpl; lra |].
  cbn [map Rsum fold_right length]. fold (Rsum (map (fun a => a * 2 + - (1)) l)).
  fold (Rsum l). rewrite IH, S_INR. lra.
Qed.

Lemma xsum_signed (row : list xr) :
  Forall finite row -> xsum row = Fin 1 ->
  xsum (map to_signed row) = Fin (2 - INR (length row)).
Proof.
  intros Hf Hs. rewrite (finite_vector row Hf) in Hs |- *.
  rewrite xsum_reals in Hs. injection Hs as Hs.
  rewrite map_map. unfold to_signed, xsub. cbn [xmul xneg xadd].
  rewrite <- (map_map (fun a => a * 2 + - (1)) Fin), xsum_reals, Rsum_signed.
  rewrite Hs, !length_map. f_equal. lra.
Qed.





(** ** Sinkhorn, continued *)

Section SinkhornMore.

(** The Gibbs kernel [exp(-c / e)] of a matrix of reals, and its total. *)
Definition kernel (e : R) (C : list (list R)) : list (list R) :=
  map (map (fun c => exp (- c / e))) C.

Definition kernel_total (e : R) (C : list (list R)) : R :=
  Rsum (map Rsum (kernel e C)).

Lemma Rsum_positive_rows (G : list (list R)) :
  G <> [] -> Forall (fun row => row <> [] /\ Forall (fun g => 0 < g) row) G ->
  0 < Rsum (map Rsum G).
Proof.
  intros Hne H. apply Rsum_pos.
  - destruct G; [congruence | discriminate].
  - apply Forall_map. eapply Forall_impl; [| exact H].
    intros row [Hr Hp]. apply Rsum_pos; assumption.
Qed.

Lemma kernel_rows_positive (e : R) (C : list (list R)) :
  Forall (fun row => row <> []) C ->
  Forall (fun row => row <> [] /\ Forall (fun g => 0 < g) row) (kernel e C).
Proof.
  intros H. unfold kernel. apply Forall_map. eapply Forall_impl; [| exact H].
  intros row Hr. split.
  - destruct row; [congruence | discriminate].
  - apply Forall_map, Forall_forall. intros c _. apply exp_pos.
Qed.

Lemma kernel_total_positive (e : R) (C : list (list R)) :
  C <> [] -> Forall (fun row => row <> []) C -> 0 < kernel_total e C.
Proof.
  intros Hne Hr. apply Rsum_positive_rows.
  - unfold kernel. intros E. apply Hne. destruct C; [reflexivity | discriminate E].
  - apply kernel_rows_positive. assumption.
Qed.

(** The sum over both axes of a non-empty matrix, as [sinkhorn] takes it. *)
Lemma tsum_both (q : tensor 2) :
  q <> [] -> tsum 2 0 (tsum 2 1 q) = [[xsum (map xsum q)]].
Proof.
  intros Hq. destruct q as [|r0 rest]; [exfalso; apply Hq; reflexivity |].
  change (tsum 2 1 (r0 :: rest)) with (map (fun r => [xsum r]) (r0 :: rest)).
  unfold xsum at 1. simpl. f_equal. apply total_sum_fold.
Qed.

Lemma sinkhorn_init_lift (e : R) (C : list (list R)) :
  e <> 0 -> C <> [] -> Forall (fun row => row <> []) C ->
  sinkhorn_init 0 (lift C) (Fin e)
  = lift (map (map (fun g => g / kernel_total e C)) (kernel e C)).
Proof.
  intros He Hne Hr. unfold sinkhorn_init. rewrite axis_m1, axis_m2.
  assert (Eq : tmap (fun c => xexp (xdiv (xneg c) (Fin e))) 2 (lift C)
               = lift (kernel e C)).
  { unfold lift, kernel.
    change (tmap (fun c => xexp (xdiv (xneg c) (Fin e))) 2 (map (map Fin) C))
      with (map (map (fun c => xexp (xdiv (xneg c) (Fin e)))) (map (map Fin) C)).
    rewrite !map_map. apply map_ext. intros row. rewrite !map_map.
    apply map_ext. intros c. cbn [xneg]. rewrite xdiv_fin by assumption. reflexivity. }
  rewrite Eq, tsum_both
    by (unfold lift, kernel; intros E; apply Hne;
        destruct C; [reflexivity | discriminate E]).
  assert (Et : xsum (map xsum (lift (kernel e C))) = Fin (kernel_total e C)).
  { unfold lift. rewrite map_map.
    rewrite (map_ext _ (fun row => Fin (Rsum row)) (fun row => xsum_reals row)).
    rewrite <- (map_map Rsum Fin). apply xsum_reals. }
  rewrite Et.
  change (tbin xdiv 2 (lift (kernel e C)) [[Fin (kernel_total e C)]])
    with (map (map (fun x => xdiv x (Fin (kernel_total e C)))) (lift (kernel e C))).
  unfold lift. rewrite !map_map. apply map_ext. intros row. rewrite !map_map.
  apply map_ext. intros g. apply xdiv_fin.
  pose proof (kernel_total_positive e C Hne Hr). lra.
Qed.

(** [sinkhorn] sees the cost matrix only through the initial matrix. *)
Lemma sinkhorn_init_determines (k : nat) (c1 c2 : tensor (S (S k))) (eps : xr)
  (niter : Z) (r_prob c_prob : option (tensor (S k))) :
  sinkhorn_init k c1 eps = sinkhorn_init k c2 eps ->
  sinkhorn k c1 eps niter r_prob c_prob = sinkhorn k c2 eps niter r_prob c_prob.
Proof. intros H. unfold sinkhorn, sinkhorn_iterate. rewrite H. reflexivity. Qed.

Lemma Rsum_scale (K : R) (l : list R) : Rsum (map (fun g => g * K) l) = Rsum l * K.
Proof. induction l as [|a l IH]; simpl; [lra |]. rewrite IH. lra. Qed.

Lemma kernel_shift (e a : R) (C : list (list R)) :
  e <> 0 ->
  kernel e (map (map (fun c => c + a)) C)
  = map (map (fun g => g * exp (- a / e))) (kernel e C).
Proof.
  intros He. unfold kernel. rewrite !map_map. apply map_ext. intros row.
  rewrite !map_map. apply map_ext. intros c.
  rewrite <- exp_plus. f_equal. field. assumption.
Qed.

Lemma kernel_total_shift (e a : R) (C : list (list R)) :
  e <> 0 ->
  kernel_total e (map (map (fun c => c + a)) C) = kernel_total e C * exp (- a / e).
Proof.
  intros He. unfold kernel_total. rewrite (kernel_shift e a C He), map_map.
  rewrite (map_ext _ (fun row => Rsum row * exp (- a / e))
             (fun row => Rsum_scale (exp (- a / e)) row)).
  rewrite <- (map_map Rsum (fun s => s * exp (- a / e))). apply Rsum_scale.
Qed.

Lemma rows_nonempty (M N : nat) (x : tensor 2) :
  (0 < M)%nat -> (0 < N)%nat -> has_shape [M; N] 2 x ->
  x <> [] /\ Forall (fun row => row <> []) x.
Proof.
  intros HM HN Hs. apply has_shape_rows in Hs. destruct Hs as [Hl Hr]. split.
  - destruct x; [simpl in Hl; lia | discriminate].
  - eapply Forall_impl; [| exact Hr]. intros row Hrow.
    destruct row; [simpl in Hrow; lia | discriminate].
Qed.

Lemma rows_nonempty_reals (M N : nat) (C : list (list R)) :
  (0 < M)%nat -> (0 < N)%nat -> has_shape [M; N] 2 (lift C) ->
  C <> [] /\ Forall (fun row => row <> []) C.
Proof.
  intros HM HN Hs. destruct (rows_nonempty M N (lift C) HM HN Hs) as [H1 H2]. split.
  - intros ->. apply H1. reflexivity.
  - unfold lift in H2. rewrite Forall_map in H2.
    eapply Forall_impl; [| exact H2]. intros row Hrow ->. apply Hrow. reflexivity.
Qed.

End SinkhornMore.



(** The row-wise softmax of [-cost / e]. *)
Definition softmax (e : R) (row : list xr) : list xr :=
  map (fun c => Fin (exp (- to_R c / e)
                     / Rsum (map (fun c' => exp (- to_R c' / e)) row)))
      row.



(** X11: a missing marginal is the Python quotient [1 / m] or [1 / n], so a
    cost matrix with no rows and no row marginal, or with rows of no columns
    and no marginals, makes [sinkhorn] raise a division by zero. *)
Theorem sinkhorn_empty_raises :
  (forall (eps : xr) (niter : Z) (c_prob : option (tensor 1)),
      sinkhorn 0 [] eps niter None c_prob = Raise ZeroDivisionError) /\
  (forall (M : nat) (eps : xr) (niter : Z),
      (0 < M)%nat ->
      sinkhorn 0 (repeat [] M) eps niter None None = Raise ZeroDivisionError).
Proof.
  split; [reflexivity |].
  intros M eps niter HM. unfold sinkhorn, sinkhorn_iterate.
  assert (E : sinkhorn_init 0 (repeat [] M) eps = repeat [] M).
  { unfold sinkhorn_init. rewrite axis_m1, axis_m2.
    set (q := tmap _ 2 (repeat [] M)).
    assert (Eq : q = repeat [] M).
    { unfold q. change (tmap (fun c => xexp (xdiv (xneg c) eps)) 2 (repeat [] M))
        with (map (map (fun c => xexp (xdiv (xneg c) eps))) (repeat [] M)).
      rewrite map_repeat. reflexivity. }
    rewrite Eq, tsum_both by (destruct M; [lia | discriminate]).
    change (tbin xdiv 2 (repeat [] M) [[xsum (map xsum (repeat [] M))]])
      with (map (map (fun x => xdiv x (xsum (map xsum (repeat [] M)))))
              (repeat [] M)).
    rewrite map_repeat. reflexivity. }
  rewrite E, axis_m1, axis_m2. destruct M as [|M']; [lia |]. reflexivity.
Qed.

Section ColumnMarginals.

Import SinkhornSpec.

Variables M N : nat.
Hypothesis M_pos : (0 < M)%nat.
Hypothesis N_pos : (0 < N)%nat.

Lemma xsum_scale (c : R) (l : list xr) :
  Forall finite l -> xsum (map (fun x => xmul x (Fin c)) l) = xmul (xsum l) (Fin c).
Proof.
  intros Hf. rewrite (finite_vector l Hf), map_map. cbn [xmul].
  rewrite <- (map_map (fun a => a * c) Fin), !xsum_reals, Rsum_scale. reflexivity.
Qed.

Lemma matrix_column (f : nat -> nat -> xr) (j : nat) :
  (j < N)%nat ->
  map (fun row => nth j row (Fin 0)) (matrix M N f) = map (fun i => f i j) (seq 0 M).
Proof.
  intros Hj. unfold matrix. rewrite map_map. apply map_ext. intros i.
  apply nth_map_seq. exact Hj.
Qed.

Lemma column_as_entries (X : tensor 2) (j : nat) :
  has_shape [M; N] 2 X ->
  map (fun row => nth j row (Fin 0)) X = map (fun i => entry X i j) (seq 0 M).
Proof.
  intros Hs. apply has_shape_rows in Hs. destruct Hs as [Hl _].
  rewrite <- Hl. apply (map_as_seq (fun row => nth j row (Fin 0)) X []).
Qed.

Lemma column_positive (X : tensor 2) (j : nat) :
  has_shape [M; N] 2 X -> tall positive 2 X -> (j < N)%nat ->
  map (fun row => nth j row (Fin 0)) X <> [] /\
  Forall positive (map (fun row => nth j row (Fin 0)) X).
Proof.
  intros Hs Hp Hj. apply has_shape_rows in Hs. destruct Hs as [Hl Hr]. split.
  - destruct X; [simpl in Hl; lia | discriminate].
  - apply Forall_map. simpl in Hp. rewrite Forall_forall in Hr, Hp |- *.
    intros row Hin. specialize (Hp row Hin). rewrite Forall_forall in Hp.
    apply Hp, nth_In. rewrite (Hr row Hin). exact Hj.
Qed.

(** The columns of the column step, for the uniform target. *)
Lemma col_step_column_sum (X : tensor 2) (j : nat) :
  has_shape [M; N] 2 X -> tall positive 2 X -> (j < N)%nat ->
  col_sum (col_step M N None X) j = Fin (1 / INR N).
Proof.
  intros Hs Hp Hj. unfold col_sum, col_step. rewrite (matrix_column _ j Hj).
  unfold target, col_sum.
  destruct (column_positive X j Hs Hp Hj) as [Hne Hpos].
  set (col := map (fun row => nth j row (Fin 0)) X) in *.
  assert (E : map (fun i => xmul (xdiv (entry X i j) (xsum col)) (Fin (1 / INR N)))
                (seq 0 M)
              = map (fun x => xmul x (Fin (1 / INR N)))
                  (map (fun x => xdiv x (xsum col)) col)).
  { unfold col. rewrite (column_as_entries X j Hs), !map_map. reflexivity. }
  rewrite E. destruct (normalized_row col Hne Hpos) as (H1 & H2 & _).
  rewrite xsum_scale by (apply positive_all_finite; exact H2).
  rewrite H1. cbn [xmul]. f_equal. lra.
Qed.

Lemma row_step_code (q : tensor 2) :
  has_shape [M; N] 2 q ->
  row_step M N None q
  = scale 2 (tbin xdiv 2 q (tsum 2 1 q)) (Uniform (Fin (1 / INR M))).
Proof.
  intros Hq. symmetry.
  destruct (row_division_entries M N q Hq) as [A1 A2].
  destruct (scale_uniform_entries M N _ A1 (Fin (1 / INR M))) as [B1 B2].
  apply matrix_ext; [exact B1 |]. intros i j Hi Hj.
  rewrite (B2 i j Hi Hj), (A2 i j Hi Hj). reflexivity.
Qed.

End ColumnMarginals.



(** ** The MSE reducer, continued *)

Section SquaredErrors.

(** The squared difference the loss averages. *)
Definition sq_diff (x y : R) : R := (x + - y) * (x + - y).

Definition Rmse (A B : list (list R)) : R :=
  Rsum (concat (zip_with (zip_with sq_diff) A B))
  / INR (length (concat (zip_with (zip_with sq_diff) A B))).

Lemma zip_with_lift (f : xr -> xr -> xr) (g : R -> R -> R) (a b : list R) :
  (forall x y, f (Fin x) (Fin y) = Fin (g x y)) ->
  zip_with f (map Fin a) (map Fin b) = map Fin (zip_with g a b).
Proof.
  intros H. revert b; induction a as [|x a IH]; intros [|y b]; simpl;
    try reflexivity. now rewrite H, IH.
Qed.

(** Rows of equal lengths, pairwise. *)
Inductive same_shape : list (list R) -> list (list R) -> Prop :=
| same_nil : same_shape [] []
| same_cons a b A B :
    length a = length b -> same_shape A B -> same_shape (a :: A) (b :: B).

Lemma same_shape_length (A B : list (list R)) :
  same_shape A B -> length A = length B.
Proof. induction 1; simpl; congruence. Qed.

Lemma tbin_lift (f : xr -> xr -> xr) (g : R -> R -> R) (A B : list (list R)) :
  (forall x y, f (Fin x) (Fin y) = Fin (g x y)) ->
  same_shape A B ->
  tbin f 2 (lift A) (lift B) = lift (zip_with (zip_with g) A B).
Proof.
  intros Hfg Hs.
  rewrite (tbin_same_length f 1 (lift A) (lift B))
    by (unfold lift; rewrite !length_map; apply same_shape_length; exact Hs).
  unfold lift. induction Hs as [|a b A B Hl Hs IH]; [reflexivity |].
  cbn [map zip_with]. rewrite IH. f_equal.
  rewrite (tbin_vector f (map Fin a) (map Fin b)) by (rewrite !length_map; exact Hl).
  apply zip_with_lift. exact Hfg.
Qed.

Lemma concat_lift (Z : list (list R)) : concat (lift Z) = map Fin (concat Z).
Proof. unfold lift. now rewrite <- concat_map. Qed.

Lemma Rsum_sq_nonneg (l : list R) : Forall (fun s => 0 <= s) l -> 0 <= Rsum l.
Proof. induction 1; simpl; lra. Qed.

Lemma Rsum_zero_iff (l : list R) :
  Forall (fun s => 0 <= s) l -> (Rsum l = 0 <-> Forall (fun s => s = 0) l).
Proof.
  induction 1 as [|s l Hs Hl IH]; simpl.
  - split; [constructor | reflexivity].
  - pose proof (Rsum_sq_nonneg l Hl) as Hn. split.
    + intros H. constructor; [lra |]. apply IH. lra.
    + intros H. pose proof (Forall_inv H) as H1. pose proof (Forall_inv_tail H) as H2.
      simpl in H1. apply IH in H2. lra.
Qed.

Lemma sq_diff_nonneg (x y : R) : 0 <= sq_diff x y.
Proof. unfold sq_diff. apply Rle_0_sqr. Qed.

Lemma sq_diff_zero (x y : R) : sq_diff x y = 0 <-> x = y.
Proof.
  unfold sq_diff. split.
  - intros H. apply Rmult_integral in H. lra.
  - intros ->. ring.
Qed.

Lemma squares_nonneg (A B : list (list R)) :
  Forall (fun s => 0 <= s) (concat (zip_with (zip_with sq_diff) A B)).
Proof.
  revert B; induction A as [|a A IH]; intros [|b B]; simpl; try constructor.
  apply Forall_app. split; [| apply IH].
  clear. revert b; induction a as [|x a IHa]; intros [|y b]; simpl; constructor;
    auto using sq_diff_nonneg.
Qed.

Lemma squares_zero_row (a b : list R) :
  length a = length b ->
  (Forall (fun s => s = 0) (zip_with sq_diff a b) <-> a = b).
Proof.
  revert b; induction a as [|x a IH]; intros [|y b] Hl; simpl in *;
    try discriminate.
  - split; [reflexivity | constructor].
  - split.
    + intros H. pose proof (Forall_inv H) as H1. pose proof (Forall_inv_tail H) as H2.
      simpl in H1. apply (proj1 (sq_diff_zero x y)) in H1.
      apply (proj1 (IH b ltac:(lia))) in H2. now rewrite H1, H2.
    + intros H. injection H as -> ->. constructor; [now apply sq_diff_zero |].
      apply IH; [lia | reflexivity].
Qed.

Lemma squares_zero (A B : list (list R)) :
  same_shape A B ->
  (Forall (fun s => s = 0) (concat (zip_with (zip_with sq_diff) A B)) <-> A = B).
Proof.
  induction 1 as [|a b A B Hl Hs IH]; simpl.
  - split; [reflexivity | constructor].
  - rewrite Forall_app, (squares_zero_row a b Hl), IH. split.
    + intros [-> ->]. reflexivity.
    + intros H. injection H as -> ->. split; reflexivity.
Qed.

Lemma mse_loss_lift (A B : list (list R)) :
  same_shape A B ->
  concat (zip_with (zip_with sq_diff) A B) <> [] ->
  mse_loss (lift A) (lift B) = Fin (Rmse A B).
Proof.
  intros Hs Hne. unfold mse_loss, Rmse.
  rewrite (tbin_lift _ sq_diff A B) by (auto; intros; reflexivity).
  rewrite concat_lift, xsum_reals, length_map.
  apply xdiv_fin. apply not_0_INR.
  destruct (concat (zip_with (zip_with sq_diff) A B)); [congruence | discriminate].
Qed.

Lemma Rmse_zero_iff (A B : list (list R)) :
  same_shape A B ->
  concat (zip_with (zip_with sq_diff) A B) <> [] ->
  0 <= Rmse A B /\ (Rmse A B = 0 <-> A = B).
Proof.
  intros Hs Hne. unfold Rmse.
  set (sq := concat (zip_with (zip_with sq_diff) A B)) in *.
  assert (Hl : 0 < INR (length sq)).
  { apply lt_0_INR. destruct sq; [congruence | simpl; lia]. }
  pose proof (squares_nonneg A B) as Hn. fold sq in Hn.
  pose proof (Rsum_sq_nonneg sq Hn) as Hs0.
  split.
  - apply Rmult_le_pos; [assumption |]. apply Rlt_le, Rinv_0_lt_compat; assumption.
  - rewrite <- (squares_zero A B Hs). fold sq. rewrite <- (Rsum_zero_iff sq Hn).
    split.
    + intros H. apply (Rmult_eq_reg_r (/ INR (length sq))).
      * unfold Rdiv in H. rewrite H. ring.
      * apply Rinv_neq_0_compat. lra.
    + intros H. rewrite H. unfold Rdiv. ring.
Qed.

(** Two finite matrices of the same positive dimensions, as matrices of
    reals. *)
Lemma same_shape_of_has_shape (M N : nat) (a b : tensor 2) :
  (0 < M)%nat -> (0 < N)%nat ->
  has_shape [M; N] 2 a -> has_shape [M; N] 2 b ->
  same_shape (map (map to_R) a) (map (map to_R) b) /\
  concat (zip_with (zip_with sq_diff) (map (map to_R) a) (map (map to_R) b)) <> [].
Proof.
  intros HM HN Ha Hb. apply has_shape_rows in Ha, Hb.
  destruct Ha as [La Ra], Hb as [Lb Rb]. rewrite <- La in Lb.
  assert (G : same_shape (map (map to_R) a) (map (map to_R) b)).
  { clear La HM. revert b Lb Rb. induction Ra as [|r a Hr Ra IH];
      intros [|s b] Lb Rb; simpl in Lb; try discriminate; [constructor |].
    inversion Rb; subst. simpl. constructor.
    - rewrite !length_map. congruence.
    - apply IH; [lia | assumption]. }
  split; [exact G |].
  destruct a as [|r a]; [simpl in La; lia |].
  destruct b as [|s b]; [simpl in Lb; discriminate |].
  inversion Ra; inversion Rb; subst.
  destruct r as [|x r]; [simpl in *; lia |].
  destruct s as [|y s]; [simpl in *; lia |]. discriminate.
Qed.

End SquaredErrors.

Lemma mse_loss_zero_iff (M N : nat) (a b : tensor 2) :
  (0 < M)%nat -> (0 < N)%nat ->
  has_shape [M; N] 2 a -> has_shape [M; N] 2 b ->
  tall finite 2 a -> tall finite 2 b ->
  exists r, mse_loss a b = Fin r /\ 0 <= r /\ (r = 0 <-> a = b).
Proof.
  intros HM HN Ha Hb Fa Fb.
  destruct (same_shape_of_has_shape M N a b HM HN Ha Hb) as [Hs Hne].
  destruct (Rmse_zero_iff _ _ Hs Hne) as [H0 Hz].
  exists (Rmse (map (map to_R) a) (map (map to_R) b)).
  split; [| split; [exact H0 |]].
  - rewrite (finite_matrix a Fa) at 1. rewrite (finite_matrix b Fb) at 1.
    apply mse_loss_lift; assumption.
  - rewrite Hz. split.
    + intros E. rewrite (finite_matrix a Fa), (finite_matrix b Fb), E. reflexivity.
    + intros E. rewrite E. reflexivity.
Qed.



(** ** Retrieval accuracy, continued *)

Section AccuracyMore.

Lemma filter_seq_length (f : nat -> bool) (n : nat) :
  (length (filter f (seq 0 n)) <= n)%nat.
Proof.
  rewrite <- (length_seq n 0) at 2. generalize (seq 0 n). intros l.
  induction l as [|a l IH]; simpl; [lia |]. destruct (f a); simpl; lia.
Qed.

Lemma filter_all (f : nat -> bool) (l : list nat) :
  (forall i, In i l -> f i = true) -> filter f l = l.
Proof.
  induction l as [|a l IH]; intros H; simpl; [reflexivity |].
  rewrite (H a) by (left; reflexivity). f_equal. apply IH.
  intros i Hi. apply H. right. exact Hi.
Qed.

(** The quotient of line 225 for two counts and a batch size. *)
Definition accuracy_of (acc_i acc_t : nat) (batch_size : Z) : xr :=
  xdiv (xdiv (Fin (INR (acc_i + acc_t))) (Fin 2)) (Fin (IZR batch_size)).

Lemma accuracy_of_nonzero (a b : nat) (n : Z) :
  n <> 0%Z -> accuracy_of a b n = Fin (INR (a + b) / 2 / IZR n).
Proof.
  intros Hn. unfold accuracy_of. rewrite xdiv_fin by lra.
  apply xdiv_fin. intros E. apply Hn. apply eq_IZR. exact E.
Qed.

Lemma accuracy_of_zero (a b : nat) :
  accuracy_of a b 0 = if Nat.eqb (a + b) 0 then NaN else PInf.
Proof.
  unfold accuracy_of. rewrite xdiv_fin by lra. unfold xdiv, Rsign.
  destruct (Req_dec_T 0 0) as [_ | H]; [| exfalso; apply H; reflexivity].
  destruct (Nat.eqb_spec (a + b) 0) as [E | E].
  - rewrite E. simpl INR.
    destruct (Req_dec_T (0 / 2) 0) as [_ | H]; [reflexivity | exfalso; lra].
  - assert (Hpos : 0 < INR (a + b) / 2).
    { apply Rdiv_lt_0_compat; [apply lt_0_INR; lia | lra]. }
    destruct (Req_dec_T (INR (a + b) / 2) 0) as [H | _]; [lra |].
    destruct (Rlt_dec 0 (INR (a + b) / 2)) as [_ | H]; [reflexivity | contradiction].
Qed.

End AccuracyMore.

(** X14: on an N x N logits matrix with [batch_size = N], the accuracy lies
    between 0 and 1. *)
Theorem compute_accuracy_range (N : nat) (logits : tensor 2) :
  (0 < N)%nat -> has_shape [N; N] 2 logits ->
  exists r, compute_accuracy logits (Z.of_nat N) = Fin r /\ 0 <= r <= 1.
Proof.
  intros HN Hs. rewrite (compute_accuracy_counts N HN logits Hs).
  set (a := length (filter _ (seq 0 N))). set (b := length (filter _ (seq 0 N))).
  assert (Ha : (a <= N)%nat) by apply filter_seq_length.
  assert (Hb : (b <= N)%nat) by apply filter_seq_length.
  fold (accuracy_of a b (Z.of_nat N)). rewrite accuracy_of_nonzero by lia.
  eexists; split; [reflexivity |]. rewrite <- INR_IZR_INZ.
  assert (H0 : 0 < INR N) by (apply lt_0_INR; exact HN).
  assert (H1 : 0 <= INR (a + b)) by apply pos_INR.
  assert (H2 : INR (a + b) <= 2 * INR N).
  { replace (2 * INR N) with (INR (2 * N)) by (rewrite mult_INR; simpl; lra).
    apply le_INR. lia. }
  split.
  - apply Rmult_le_pos; [lra |]. apply Rlt_le, Rinv_0_lt_compat. exact H0.
  - apply (Rmult_le_reg_r (INR N)); [exact H0 |].
    unfold Rdiv. rewrite Rmult_assoc, Rinv_l by lra. lra.
Qed.

Lemma compute_accuracy_range_witness :
  exists r, compute_accuracy reversed_4x4 (Z.of_nat 4) = Fin r /\ 0 <= r <= 1.
Proof.
  apply (compute_accuracy_range 4); [lia | simpl; repeat constructor].
Defined.

(** X15: on an N x N logits matrix a [batch_size] of 0 raises nothing: the
    division of line 225 is a tensor division, so the result is NaN when no
    row and no column has its argmax on the diagonal, and plus infinity
    otherwise. *)
Theorem compute_accuracy_zero_batch (N : nat) (logits : tensor 2) :
  (0 < N)%nat -> has_shape [N; N] 2 logits ->
  compute_accuracy logits 0
  = if Nat.eqb
         (length (filter (fun i => Nat.eqb (argmax1 (row logits i)) i) (seq 0 N))
          + length (filter (fun j => Nat.eqb (argmax1 (column logits j)) j) (seq 0 N))) 0
    then NaN else PInf.
Proof.
  intros HN Hs. rewrite (compute_accuracy_counts N HN logits Hs).
  apply accuracy_of_zero.
Qed.

Lemma compute_accuracy_zero_batch_witness :
  compute_accuracy identity_4x4 0
  = if Nat.eqb
         (length (filter (fun i => Nat.eqb (argmax1 (row identity_4x4 i)) i) (seq 0 4))
          + length (filter (fun j => Nat.eqb (argmax1 (column identity_4x4 j)) j)
                      (seq 0 4))) 0
    then NaN else PInf.
Proof.
  apply (compute_accuracy_zero_batch 4); [lia | simpl; repeat constructor].
Defined.

Section PerfectAccuracy.

Lemma filter_full (f : nat -> bool) (l : list nat) :
  length (filter f l) = length l -> forall i, In i l -> f i = true.
Proof.
  induction l as [|a l IH]; intros H i Hi; [destruct Hi |].
  simpl in H. pose proof (filter_length_le f l) as Hle.
  destruct (f a) eqn:Ea; simpl in H; [| lia].
  destruct Hi as [<- | Hi]; [exact Ea |]. apply IH; [lia | exact Hi].
Qed.

Lemma filter_full_iff (f : nat -> bool) (n : nat) :
  length (filter f (seq 0 n)) = n <-> forall i, (i < n)%nat -> f i = true.
Proof.
  split.
  - intros H i Hi. apply (filter_full f (seq 0 n)).
    + rewrite length_seq. exact H.
    + apply in_seq. lia.
  - intros H. rewrite filter_all; [apply length_seq |].
    intros i Hi. apply H. apply in_seq in Hi. lia.
Qed.

End PerfectAccuracy.

(** X16: on an N x N logits matrix with [batch_size = N] the accuracy is 1
    exactly when every diagonal entry is the first greatest entry of its
    row and of its column. *)
Theorem compute_accuracy_perfect_iff (N : nat) (logits : tensor 2) :
  (0 < N)%nat -> has_shape [N; N] 2 logits ->
  (compute_accuracy logits (Z.of_nat N) = Fin 1
   <-> forall i, (i < N)%nat ->
         first_max (row logits i) i /\ first_max (column logits i) i).
Proof.
  intros HN Hs. rewrite (compute_accuracy_counts N HN logits Hs).
  set (f := fun i => Nat.eqb (argmax1 (row logits i)) i).
  set (g := fun j => Nat.eqb (argmax1 (column logits j)) j).
  pose proof (filter_seq_length f N) as Ha.
  pose proof (filter_seq_length g N) as Hb.
  fold (accuracy_of (length (filter f (seq 0 N))) (length (filter g (seq 0 N)))
          (Z.of_nat N)).
  rewrite accuracy_of_nonzero by lia. rewrite <- INR_IZR_INZ.
  assert (H0 : 0 < INR N) by (apply lt_0_INR; exact HN).
  assert (Hrow : forall i, (i < N)%nat -> row logits i <> []).
  { intros i Hi E. pose proof (nth_row_length N N logits i Hs Hi) as Hl.
    unfold row in E. apply (f_equal (@length xr)) in E. simpl in E.
    change (@length xr (nth i logits [])) with (length (nth i logits [])) in E.
    lia. }
  assert (Hcol : forall i, column logits i <> []).
  { intros i E. unfold column in E. apply map_eq_nil in E.
    apply has_shape_rows in Hs. destruct Hs as [Hl _]. rewrite E in Hl.
    simpl in Hl. lia. }
  assert (Hfull : length (filter f (seq 0 N)) = N /\ length (filter g (seq 0 N)) = N
                  <-> forall i, (i < N)%nat ->
                        first_max (row logits i) i /\ first_max (column logits i) i).
  { rewrite !filter_full_iff. unfold f, g. split.
    - intros [Hf Hg] i Hi. split.
      + apply argmax1_iff; [apply Hrow; exact Hi |]. apply Nat.eqb_eq. apply Hf. exact Hi.
      + apply argmax1_iff; [apply Hcol |]. apply Nat.eqb_eq. apply Hg. exact Hi.
    - intros H. split; intros i Hi; apply Nat.eqb_eq; destruct (H i Hi) as [Hr Hc].
      + apply argmax1_iff; [apply Hrow; exact Hi | exact Hr].
      + apply argmax1_iff; [apply Hcol | exact Hc]. }
  rewrite <- Hfull. split.
  - intros E. injection E as E.
    assert (E2 : INR (length (filter f (seq 0 N)) + length (filter g (seq 0 N)))
                 = INR (2 * N)).
    { rewrite (mult_INR 2 N). simpl (INR 2).
      apply (Rmult_eq_reg_r (/ 2 * / INR N)).
      - unfold Rdiv in E. rewrite <- Rmult_assoc. rewrite E. field. lra.
      - apply Rmult_integral_contrapositive. split; [lra |].
        apply Rinv_neq_0_compat. lra. }
    apply INR_eq in E2. lia.
  - intros [-> ->]. apply f_equal. rewrite plus_INR. field. lra.
Qed.

Lemma compute_accuracy_perfect_iff_witness :
  compute_accuracy identity_4x4 (Z.of_nat 4) = Fin 1
  <-> forall i, (i < 4)%nat ->
        first_max (row identity_4x4 i) i /\ first_max (column identity_4x4 i) i.
Proof.
  apply (compute_accuracy_perfect_iff 4); [lia | simpl; repeat constructor].
Defined.

Section Temperature.

Variable f : xr -> xr.
Hypothesis f_order : forall x y, xgt (f x) (f y) = xgt x y.

Lemma argmax_from_map (v : list xr) (best : xr) (best_i i : nat) :
  argmax_from (f best) best_i i (map f v) = argmax_from best best_i i v.
Proof.
  revert best best_i i. induction v as [|x r IH]; intros best best_i i; simpl;
    [reflexivity |].
  rewrite f_order. destruct (xgt x best); apply IH.
Qed.

Lemma argmax1_map (v : list xr) : argmax1 (map f v) = argmax1 v.
Proof. destruct v as [|x r]; [reflexivity |]. apply argmax_from_map. Qed.

Lemma row_map (logits : tensor 2) (i : nat) :
  row (map (map f) logits) i = map f (row logits i).
Proof.
  unfold row. change (@nil xr) with (map f []) at 1. apply map_nth.
Qed.

End Temperature.

Lemma xmul_positive_order (c : R) (x y : xr) :
  0 < c -> xgt (xmul (Fin c) x) (xmul (Fin c) y) = xgt x y.
Proof.
  intros Hc.
  assert (Hs : Rsign c = Some true).
  { unfold Rsign. destruct (Req_dec_T c 0); [lra |].
    destruct (Rlt_dec 0 c); [reflexivity | lra]. }
  destruct x as [a| | |], y as [b| | |]; simpl; unfold xmul_inf; rewrite ?Hs; simpl;
    try reflexivity.
  destruct (Rlt_dec (c * b) (c * a)) as [H | H], (Rlt_dec b a) as [H' | H'];
    try reflexivity; exfalso.
  - apply H'. apply (Rmult_lt_reg_l c); assumption.
  - apply H. apply Rmult_lt_compat_l; assumption.
Qed.

Lemma column_scaled (c : R) (logits : tensor 2) (j : nat) :
  column (map (map (xmul (Fin c))) logits) j = map (xmul (Fin c)) (column logits j).
Proof.
  unfold column. rewrite !map_map. apply map_ext. intros r.
  assert (E : Fin 0 = xmul (Fin c) (Fin 0)) by (simpl; f_equal; lra).
  rewrite E at 1. apply map_nth.
Qed.

Lemma has_shape_scaled (c : R) (N D : nat) (logits : tensor 2) :
  has_shape [N; D] 2 logits -> has_shape [N; D] 2 (map (map (xmul (Fin c))) logits).
Proof.
  intros Hs. apply has_shape_rows in Hs. destruct Hs as [Hl Hr].
  apply has_shape_rows. split; [rewrite length_map; exact Hl |].
  apply Forall_map. revert Hr. apply Forall_impl. intros r Hr.
  rewrite length_map. exact Hr.
Qed.

(** X17: the accuracy of an N x N logits matrix does not change when every
    logit is multiplied by the same positive temperature. *)
Theorem compute_accuracy_scale_invariant (N : nat) (logits : tensor 2) (c : R)
    (batch_size : Z) :
  (0 < N)%nat -> has_shape [N; N] 2 logits -> 0 < c ->
  compute_accuracy (map (map (xmul (Fin c))) logits) batch_size
  = compute_accuracy logits batch_size.
Proof.
  intros HN Hs Hc.
  rewrite (compute_accuracy_counts N HN _ (has_shape_scaled c N N logits Hs)).
  rewrite (compute_accuracy_counts N HN logits Hs).
  assert (Hf : forall x y, xgt (xmul (Fin c) x) (xmul (Fin c) y) = xgt x y).
  { intros x y. apply xmul_positive_order. exact Hc. }
  rewrite (filter_ext (fun i => Nat.eqb (argmax1 (row (map (map (xmul (Fin c))) logits) i)) i)
             (fun i => Nat.eqb (argmax1 (row logits i)) i)).
  2: { intros i. rewrite row_map, (argmax1_map _ Hf). reflexivity. }
  rewrite (filter_ext
             (fun j => Nat.eqb (argmax1 (column (map (map (xmul (Fin c))) logits) j)) j)
             (fun j => Nat.eqb (argmax1 (column logits j)) j)).
  2: { intros j. rewrite column_scaled, (argmax1_map _ Hf). reflexivity. }
  reflexivity.
Qed.

Lemma compute_accuracy_scale_invariant_witness :
  compute_accuracy (map (map (xmul (Fin 100))) reversed_4x4) 4
  = compute_accuracy reversed_4x4 4.
Proof.
  apply (compute_accuracy_scale_invariant 4); [lia | simpl; repeat constructor | lra].
Defined.

(** ** The annotation converters *)

Section Converters.

Import Annotations.

Lemma and_then_assoc {A B C : Type} (r : outcome A) (f : A -> outcome B)
  (g : B -> outcome C) :
  and_then (and_then r f) g = and_then r (fun a => and_then (f a) g).
Proof. destruct r; reflexivity. Qed.

Lemma traverse_app {A B : Type} (f : A -> outcome B) (l1 l2 : list A) :
  traverse f (l1 ++ l2)
  = (b1 <~ traverse f l1 ;; b2 <~ traverse f l2 ;; Done (b1 ++ b2)).
Proof.
  induction l1 as [|a l1 IH]; simpl.
  - destruct (traverse f l2); reflexivity.
  - destruct (f a) as [b | e]; simpl; [| reflexivity].
    rewrite IH. destruct (traverse f l1) as [b1 | e]; simpl; [| reflexivity].
    destruct (traverse f l2); reflexivity.
Qed.

Lemma traverse_Forall {A B : Type} (f : A -> outcome B) (P : B -> Prop)
  (l : list A) (bs : list B) :
  (forall a b, f a = Done b -> P b) -> traverse f l = Done bs -> Forall P bs.
Proof.
  intros Hf. revert bs. induction l as [|a l IH]; simpl; intros bs H.
  - injection H as <-. constructor.
  - destruct (f a) as [b | e] eqn:Ea; simpl in H; [| discriminate].
    destruct (traverse f l) as [bs' | e] eqn:El; simpl in H; [| discriminate].
    injection H as <-. constructor; [apply (Hf a); exact Ea | apply IH; reflexivity].
Qed.

Variable sep : string.
Variable str_of : json -> string.

(** A row as [nwpu_row] builds it. *)
Definition built_row (row : json) : Prop :=
  exists filename imgid split sentences,
    row = JDict [("filename"%string, JStr filename); ("imgid"%string, imgid);
                 ("split"%string, split); ("sentences"%string, JList sentences)].

Lemma nwpu_row_built (category : string) (category_row row : json) :
  nwpu_row sep str_of category category_row = Done row -> built_row row.
Proof.
  unfold nwpu_row. intros H.
  destruct (subscript category_row "filename") as [fn | e]; simpl in H; [| discriminate].
  destruct (subscript category_row "imgid") as [ii | e]; simpl in H; [| discriminate].
  destruct (subscript category_row "split") as [sp | e]; simpl in H; [| discriminate].
  destruct (keys category_row) as [ks | e]; simpl in H; [| discriminate].
  destruct (traverse _ _) as [ss | e]; simpl in H; [| discriminate].
  injection H as <-. now eexists _, _, _, _.
Qed.

(** [row["split"] == "test"] on a row. *)
Definition is_test (row : json) : bool :=
  match subscript row "split" with
  | Done split => eq_str split "test"
  | Fail _ => false
  end.

(** Every row the two loops build, in the order they build them. *)
Fixpoint category_rows (data : json) (categories : list string) : outcome (list json) :=
  match categories with
  | [] => Done []
  | category :: rest =>
      value <~ subscript data category ;;
      rows <~ iterate value ;;
      built <~ traverse (nwpu_row sep str_of category) rows ;;
      others <~ category_rows data rest ;;
      Done (built ++ others)
  end.

Definition all_rows (data : json) : outcome (list json) :=
  categories <~ keys data ;;
  category_rows data categories.

Lemma nwpu_rows_partition (category : string) (rows : list json)
  (acc : list json * list json) :
  nwpu_rows sep str_of category rows acc
  = (built <~ traverse (nwpu_row sep str_of category) rows ;;
     Done (fst acc ++ filter (fun r => negb (is_test r)) built,
           snd acc ++ filter is_test built)).
Proof.
  revert acc. induction rows as [|r rows IH]; intros [train test]; simpl.
  - now rewrite !app_nil_r.
  - destruct (nwpu_row sep str_of category r) as [row | e] eqn:Er; simpl; [| reflexivity].
    destruct (nwpu_row_built _ _ _ Er) as (fn & ii & sp & ss & ->).
    assert (Et : is_test (JDict [("filename"%string, JStr fn); ("imgid"%string, ii);
                                 ("split"%string, sp); ("sentences"%string, JList ss)])
                 = eq_str sp "test") by reflexivity.
    set (row := JDict _) in *.
    assert (Es : subscript row "split" = Done sp) by reflexivity.
    rewrite Es. cbn [and_then fst snd].
    destruct (eq_str sp "test") eqn:E; rewrite IH;
      (destruct (traverse _ rows) as [built | e]; cbn [and_then filter fst snd];
       [| reflexivity]);
      rewrite Et; cbn [negb]; now rewrite <- !app_assoc.
Qed.

Lemma nwpu_categories_partition (data : json) (categories : list string)
  (acc : list json * list json) :
  nwpu_categories sep str_of data categories acc
  = (built <~ category_rows data categories ;;
     Done (fst acc ++ filter (fun r => negb (is_test r)) built,
           snd acc ++ filter is_test built)).
Proof.
  revert acc. induction categories as [|c cs IH]; intros [train test]; simpl.
  - now rewrite !app_nil_r.
  - destruct (subscript data c) as [value | e]; simpl; [| reflexivity].
    destruct (iterate value) as [rows | e]; simpl; [| reflexivity].
    rewrite nwpu_rows_partition.
    destruct (traverse _ rows) as [built | e]; simpl; [| reflexivity].
    rewrite IH. destruct (category_rows data cs) as [others | e]; simpl; [| reflexivity].
    now rewrite !filter_app, !app_assoc.
Qed.

Lemma category_rows_built (data : json) (categories : list string) (rows : list json) :
  category_rows data categories = Done rows -> Forall built_row rows.
Proof.
  revert rows. induction categories as [|c cs IH]; simpl; intros rows H.
  - injection H as <-. constructor.
  - destruct (subscript data c) as [value | e]; simpl in H; [| discriminate].
    destruct (iterate value) as [rs | e]; simpl in H; [| discriminate].
    destruct (traverse _ rs) as [built | e] eqn:Eb; simpl in H; [| discriminate].
    destruct (category_rows data cs) as [others | e]; simpl in H; [| discriminate].
    injection H as <-. apply Forall_app. split; [| apply IH; reflexivity].
    apply (traverse_Forall _ _ _ _ (nwpu_row_built c) Eb).
Qed.

(** A second pass over rows that are already built keeps them all: none of
    their keys starts with "raw", so each comes back with no sentence. *)
Lemma nwpu_rows_rebuilt (category : string) (rows : list json) :
  Forall built_row rows ->
  exists rebuilt, traverse (nwpu_row sep str_of category) rows = Done rebuilt.
Proof.
  induction 1 as [|r rows (fn & ii & sp & ss & ->) _ (rebuilt & IH)]; simpl.
  - now eexists.
  - rewrite IH. simpl. now eexists.
Qed.

Lemma filter_Forall {A : Type} (P : A -> Prop) (f : A -> bool) (l : list A) :
  Forall P l -> Forall P (filter f l).
Proof.
  induction 1 as [|a l Ha _ IH]; simpl; [constructor |].
  destruct (f a); [constructor |]; assumption.
Qed.

Lemma nwpu_dataset_rerun (images : list json) :
  Forall built_row images ->
  separate_nwpu_test_images sep str_of (nwpu_dataset images) = Fail TypeError.
Proof.
  intros Hb. unfold separate_nwpu_test_images, nwpu_dataset. simpl.
  rewrite nwpu_rows_partition.
  destruct (nwpu_rows_rebuilt "images" images Hb) as (rebuilt & ->). reflexivity.
Qed.

End Converters.

(** X18: when [separate_nwpu_test_images] succeeds, the images of the test
    file are the rows of all categories whose split is "test", the images of
    the rewritten annotations file are all the other rows, both in the order
    of the input; and it fails exactly where building the rows fails. *)
Theorem separate_nwpu_test_images_partition (sep : string)
  (str_of : Annotations.json -> string) (data : Annotations.json) :
  Annotations.separate_nwpu_test_images sep str_of data
  = Annotations.and_then (all_rows sep str_of data)
      (fun rows =>
         Annotations.Done
           (Annotations.nwpu_dataset (filter (fun r => negb (is_test r)) rows),
            Annotations.nwpu_dataset (filter is_test rows))).
Proof.
  unfold Annotations.separate_nwpu_test_images, all_rows.
  destruct (Annotations.keys data) as [categories | e]; simpl; [| reflexivity].
  rewrite nwpu_categories_partition.
  destruct (category_rows sep str_of data categories); reflexivity.
Qed.

(** X19: [separate_nwpu_test_images] cannot be run twice: the value it
    writes over the annotations file (and likewise the test file) is no
    longer in the per-category layout, and reading it back raises a
    TypeError, at the string under the "dataset" key. *)
Theorem separate_nwpu_test_images_twice (sep : string)
  (str_of : Annotations.json -> string) (data train_data test_data : Annotations.json) :
  Annotations.separate_nwpu_test_images sep str_of data
  = Annotations.Done (train_data, test_data) ->
  Annotations.separate_nwpu_test_images sep str_of train_data
  = Annotations.Fail Annotations.TypeError /\
  Annotations.separate_nwpu_test_images sep str_of test_data
  = Annotations.Fail Annotations.TypeError.
Proof.
  unfold Annotations.separate_nwpu_test_images at 1.
  destruct (Annotations.keys data) as [categories | e]; simpl; [| discriminate].
  rewrite nwpu_categories_partition.
  destruct (category_rows sep str_of data categories) as [rows | e] eqn:Er; simpl;
    [| discriminate].
  intros H. injection H as <- <-.
  pose proof (category_rows_built _ _ _ _ _ Er) as Hb.
  split; apply nwpu_dataset_rerun; apply filter_Forall; exact Hb.
Qed.

(** One category with a test image and a training image. *)
Definition nwpu_example : Annotations.json :=
  Annotations.JDict
    [("airport"%string,
      Annotations.JList
        [Annotations.JDict
           [("filename"%string, Annotations.JStr "airport_1.jpg");
            ("imgid"%string, Annotations.JInt 0);
            ("split"%string, Annotations.JStr "test");
            ("raw"%string, Annotations.JStr "a plane on the runway");
            ("raw_1"%string, Annotations.JStr "an airport")];
         Annotations.JDict
           [("filename"%string, Annotations.JStr "airport_2.jpg");
            ("imgid"%string, Annotations.JInt 1);
            ("split"%string, Annotations.JStr "train");
            ("raw"%string, Annotations.JStr "two planes")]])].

Lemma separate_nwpu_test_images_twice_witness :
  Annotations.separate_nwpu_test_images "/" (fun _ => EmptyString)
    (Annotations.nwpu_dataset
       [Annotations.JDict
          [("filename"%string, Annotations.JStr "airport/airport_2.jpg");
           ("imgid"%string, Annotations.JInt 1);
           ("split"%string, Annotations.JStr "train");
           ("sentences"%string,
            Annotations.JList
              [Annotations.JDict [("raw"%string, Annotations.JStr "two planes")]])]])
  = Annotations.Fail Annotations.TypeError /\
  Annotations.separate_nwpu_test_images "/" (fun _ => EmptyString)
    (Annotations.nwpu_dataset
       [Annotations.JDict
          [("filename"%string, Annotations.JStr "airport/airport_1.jpg");
           ("imgid"%string, Annotations.JInt 0);
           ("split"%string, Annotations.JStr "test");
           ("sentences"%string,
            Annotations.JList
              [Annotations.JDict
                 [("raw"%string, Annotations.JStr "a plane on the runway")];
               Annotations.JDict [("raw"%string, Annotations.JStr "an airport")]])]])
  = Annotations.Fail Annotations.TypeError.
Proof.
  apply (separate_nwpu_test_images_twice "/" (fun _ => EmptyString) nwpu_example).
  reflexivity.
Defined.

(** Whether [json.loads] accepts a line. *)
Definition parses (loads : string -> option Annotations.json) (line : string) : bool :=
  match loads line with
  | Some _ => true
  | None => false
  end.

Lemma traverse_load_line (loads : string -> option Annotations.json)
  (lines : list string) :
  (forallb (parses loads) lines = true /\
   exists parsed,
     Annotations.traverse (Annotations.load_line loads) lines = Annotations.Done parsed) \/
  (forallb (parses loads) lines = false /\
   Annotations.traverse (Annotations.load_line loads) lines
   = Annotations.Fail Annotations.JSONDecodeError).
Proof.
  induction lines as [|line lines IH]; simpl.
  - left. split; [reflexivity | now eexists].
  - unfold Annotations.load_line at 1 3, parses at 1 3.
    destruct (loads line) as [v |]; simpl.
    + destruct IH as [[-> (parsed & ->)] | [-> ->]]; simpl.
      * left. split; [reflexivity | now eexists].
      * right. split; reflexivity.
    + right. split; reflexivity.
Qed.

(** X20: [separate_rsicd_test_images] never completes and never writes a
    file: [data] is the Python list the lines were appended to, so
    [data["dataset"]] of line 85 raises a TypeError whenever every line
    parses, and otherwise the first line that does not parse has already
    raised. *)
Theorem separate_rsicd_test_images_raises (loads : string -> option Annotations.json)
  (lines : list string) :
  Annotations.separate_rsicd_test_images loads lines
  = if forallb (parses loads) lines
    then Annotations.Fail Annotations.TypeError
    else Annotations.Fail Annotations.JSONDecodeError.
Proof.
  unfold Annotations.separate_rsicd_test_images.
  destruct (traverse_load_line loads lines) as [[-> (parsed & ->)] | [-> ->]];
    reflexivity.
Qed.
